(** * SingleLinkedList<Type>: a heap model of single-linked-list.h

    The header implements a singly linked list whose sentinel node [head_]
    is embedded in the list object.  Cursors are raw [Node*] pointers, so
    the model keeps an explicit store: list objects (their [size_] and the
    forward link of their sentinel) and heap nodes, both addressed.
    Member functions are written in a small monad that threads the store
    and distinguishes normal return, a propagating C++ exception, a failed
    [assert] / undefined behaviour, and non-termination of a loop. *)

From stdpp Require Import gmap list fin_maps fin_sets.
From Stdlib Require Import ZArith Lia.

#[local] Set Warnings "-clear-no-such-hyp".

(** ** Pointers *)

(** A [Node*] is null, the address of the sentinel [head_] embedded in the
    list object stored at [l], or the address of a node made by [new]. *)
Inductive NodePtr : Type :=
  | nullptr
  | sentinel (l : N)
  | node_at (a : N).

#[global] Instance NodePtr_eq_dec : EqDecision NodePtr.
Proof. solve_decision. Defined.

(** [size_t] is 64 bits wide; [++size_] and [--size_] wrap. *)
Definition size_t_modulus : Z := 2 ^ 64.

(** The template parameter [Type] with its [operator==] and [operator<],
    and the elements whose copy constructor throws. *)
Class ElementType : Type := {
  T : Type;
  eqT : T → T → bool;
  ltT : T → T → bool;
  copy_throws : T → bool
}.

Section Model.

Context {Elem : ElementType}.

Record Node : Type := mkNode {
  value : T;
  next_node : NodePtr
}.

(** The states of the heap in which [operator new] reports
    [std::bad_alloc]. *)
Class Allocator : Type := {
  alloc_fails : gmap N Node → bool
}.

Context {Alloc : Allocator}.

(** The data members of a list object: [head_.next_node] and [size_].
    The [value] member of the sentinel is never read. *)
Record SingleLinkedList : Type := mkList {
  head_next_node : NodePtr;
  size_ : Z
}.

Record world : Type := mkWorld {
  lists : gmap N SingleLinkedList;
  heap : gmap N Node
}.

Definition empty_world : world := mkWorld ∅ ∅.

(** ** The monad of member functions *)

Inductive outcome (A : Type) : Type :=
  | Ok (a : A) (w : world)      (* normal return *)
  | Throw (w : world)           (* an exception leaves the call *)
  | Undefined                   (* failed assert, invalid pointer *)
  | Diverge.                    (* a loop that does not end *)
Arguments Ok {A} a w.
Arguments Throw {A} w.
Arguments Undefined {A}.
Arguments Diverge {A}.

Definition M (A : Type) : Type := world → outcome A.

Definition ret {A} (a : A) : M A := fun w => Ok a w.

Definition bind {A B} (m : M A) (k : A → M B) : M B := fun w =>
  match m w with
  | Ok a w' => k a w'
  | Throw w' => Throw w'
  | Undefined => Undefined
  | Diverge => Diverge
  end.

Notation "'let*' x ':=' m 'in' k" := (bind m (fun x => k))
  (at level 10, x name, m at level 100, k at level 200).

Definition assert (b : bool) : M unit := fun w =>
  if b then Ok tt w else Undefined.

Definition diverge {A} : M A := fun _ => Diverge.

(** Runs [cleanup] when [body] is left, normally or by an exception.  The
    cleanups of this file are destructors; a destructor that does not
    return normally ends the program. *)
Definition finally {A} (body : M A) (cleanup : M unit) : M A := fun w =>
  match body w with
  | Ok a w1 =>
      match cleanup w1 with
      | Ok _ w2 => Ok a w2
      | Throw _ => Undefined
      | Undefined => Undefined
      | Diverge => Diverge
      end
  | Throw w1 =>
      match cleanup w1 with
      | Ok _ w2 => Throw w2
      | Throw _ => Undefined
      | Undefined => Undefined
      | Diverge => Diverge
      end
  | Undefined => Undefined
  | Diverge => Diverge
  end.

(** Runs [cleanup] only when [body] is left by an exception. *)
Definition on_throw {A} (body : M A) (cleanup : M unit) : M A := fun w =>
  match body w with
  | Throw w1 =>
      match cleanup w1 with
      | Ok _ w2 => Throw w2
      | Throw _ => Undefined
      | Undefined => Undefined
      | Diverge => Diverge
      end
  | r => r
  end.

(** ** Memory accesses *)

Definition read_size (this : N) : M Z := fun w =>
  match lists w !! this with
  | Some L => Ok (size_ L) w
  | None => Undefined
  end.

Definition write_size (this : N) (n : Z) : M unit := fun w =>
  match lists w !! this with
  | Some L =>
      Ok tt (mkWorld (<[this := mkList (head_next_node L) n]> (lists w)) (heap w))
  | None => Undefined
  end.

(** [p->next_node] *)
Definition load_next (p : NodePtr) : M NodePtr := fun w =>
  match p with
  | nullptr => Undefined
  | sentinel l =>
      match lists w !! l with
      | Some L => Ok (head_next_node L) w
      | None => Undefined
      end
  | node_at a =>
      match heap w !! a with
      | Some n => Ok (next_node n) w
      | None => Undefined
      end
  end.

(** [p->next_node = q] *)
Definition store_next (p q : NodePtr) : M unit := fun w =>
  match p with
  | nullptr => Undefined
  | sentinel l =>
      match lists w !! l with
      | Some L => Ok tt (mkWorld (<[l := mkList q (size_ L)]> (lists w)) (heap w))
      | None => Undefined
      end
  | node_at a =>
      match heap w !! a with
      | Some n => Ok tt (mkWorld (lists w) (<[a := mkNode (value n) q]> (heap w)))
      | None => Undefined
      end
  end.

(** [p->value]; the sentinel's value is not initialised for a trivially
    constructible [Type], reading it is undefined. *)
Definition load_value (p : NodePtr) : M T := fun w =>
  match p with
  | node_at a =>
      match heap w !! a with
      | Some n => Ok (value n) w
      | None => Undefined
      end
  | _ => Undefined
  end.

(** [operator new]: fewer than [2^64] nodes fit the address space. *)
Definition operator_new (h : gmap N Node) : option N :=
  if alloc_fails h then None
  else if (Z.of_nat (size h) + 1 <? size_t_modulus)%Z then Some (fresh (dom h))
  else None.

(** [new Node(v, next)]: the storage is obtained first, then [v] is
    copied into it; when the copy throws the storage is given back. *)
Definition new_Node (v : T) (next : NodePtr) : M NodePtr := fun w =>
  match operator_new (heap w) with
  | None => Throw w
  | Some a =>
      if copy_throws v then Throw w
      else Ok (node_at a) (mkWorld (lists w) (<[a := mkNode v next]> (heap w)))
  end.

(** [delete p] *)
Definition delete_Node (p : NodePtr) : M unit := fun w =>
  match p with
  | nullptr => Ok tt w
  | sentinel _ => Undefined
  | node_at a =>
      match heap w !! a with
      | Some _ => Ok tt (mkWorld (lists w) (delete a (heap w)))
      | None => Undefined
      end
  end.

(** ** Member functions of [SingleLinkedList] *)

(** [++size_] and [--size_] on a [size_t]. *)
Definition incr_size (this : N) : M unit :=
  let* n := read_size this in write_size this ((n + 1) mod size_t_modulus)%Z.

Definition decr_size (this : N) : M unit :=
  let* n := read_size this in write_size this ((n - 1) mod size_t_modulus)%Z.

Definition is_null (p : NodePtr) : bool := bool_decide (p = nullptr).

(** An iterator is its [node_] member; both flavours hold a [Node*]. *)
Definition iterator_eq (a b : NodePtr) : bool := bool_decide (a = b).
Definition iterator_neq (a b : NodePtr) : bool := negb (bool_decide (a = b)).

Definition iterator_incr (it : NodePtr) : M NodePtr :=
  let* _ := assert (negb (is_null it)) in
  load_next it.

Definition iterator_deref (it : NodePtr) : M T :=
  let* _ := assert (negb (is_null it)) in
  load_value it.

Definition begin (this : N) : M NodePtr := load_next (sentinel this).
Definition cbegin (this : N) : M NodePtr := load_next (sentinel this).
Definition end_ (this : N) : NodePtr := nullptr.
Definition cend (this : N) : NodePtr := nullptr.
Definition before_begin (this : N) : NodePtr := sentinel this.
Definition cbefore_begin (this : N) : NodePtr := sentinel this.

Definition GetSize (this : N) : M Z := read_size this.

Definition IsEmpty (this : N) : M bool :=
  let* n := read_size this in ret (n =? 0)%Z.

Definition swap (this other : N) : M unit :=
  let* s1 := read_size this in
  let* s2 := read_size other in
  let* _ := write_size this s2 in
  let* _ := write_size other s1 in
  let* h1 := load_next (sentinel this) in
  let* h2 := load_next (sentinel other) in
  let* _ := store_next (sentinel this) h2 in
  store_next (sentinel other) h1.

Definition PushFront (this : N) (v : T) : M unit :=
  let* old := load_next (sentinel this) in
  let* p := new_Node v old in
  let* _ := store_next (sentinel this) p in
  incr_size this.

Definition PopFront (this : N) : M unit :=
  let* n := read_size this in
  let* first := load_next (sentinel this) in
  let* _ := assert (negb (n =? 0)%Z && negb (is_null first)) in
  let* new_first_node := load_next first in
  let* _ := delete_Node first in
  let* _ := store_next (sentinel this) new_first_node in
  decr_size this.

Definition InsertAfter (this : N) (pos : NodePtr) (v : T) : M NodePtr :=
  let* _ := assert (negb (is_null pos)) in
  let* old := load_next pos in
  let* p := new_Node v old in
  let* _ := store_next pos p in
  let* _ := incr_size this in
  load_next pos.

Definition EraseAfter (this : N) (pos : NodePtr) : M NodePtr :=
  let* n := read_size this in
  let* _ := assert (negb (n =? 0)%Z && negb (is_null pos)) in
  let* victim := load_next pos in
  let* _ := assert (negb (is_null victim)) in
  let* ptr_on_elem_after_deleted := load_next victim in
  let* _ := delete_Node victim in
  let* _ := store_next pos ptr_on_elem_after_deleted in
  let* _ := decr_size this in
  ret ptr_on_elem_after_deleted.

(** The loop of [Clear]; every round deletes a node, so [fuel] above the
    number of live nodes is never used up. *)
Fixpoint Clear_loop (fuel : nat) (this : N) : M unit :=
  match fuel with
  | O => diverge
  | S fuel' =>
      let* first := load_next (sentinel this) in
      if is_null first then ret tt
      else
        let* after := load_next first in
        let* _ := store_next (sentinel this) after in
        let* _ := delete_Node first in
        Clear_loop fuel' this
  end.

Definition Clear (this : N) : M unit := fun w =>
  (let* _ := Clear_loop (S (size (heap w))) this in write_size this 0%Z) w.

(** Storage of a list object, with the default member initialisers
    [Node head_] (null link) and [size_ = 0u]. *)
Definition new_object : M N := fun w =>
  let l := fresh (dom (lists w)) in
  Ok l (mkWorld (<[l := mkList nullptr 0%Z]> (lists w)) (heap w)).

Definition release_object (this : N) : M unit := fun w =>
  match lists w !! this with
  | Some _ => Ok tt (mkWorld (delete this (lists w)) (heap w))
  | None => Undefined
  end.

(** [~SingleLinkedList()] and the end of the object's lifetime. *)
Definition destroy (this : N) : M unit :=
  let* _ := Clear this in release_object this.

(** [SingleLinkedList() = default] *)
Definition construct_default : M N := new_object.

(** A local variable of class type: constructed by [ctor], destroyed when
    the scope is left. *)
Definition with_local {A} (ctor : M N) (body : N → M A) : M A :=
  let* l := ctor in finally (body l) (destroy l).

(** ** [CreateSingleLinkedList], a template over the container *)

(** What the template uses of [Container]: [begin()], [end()], and the
    iterator's [!=], [++] and [*].  [iteration_bound] is the number of
    rounds after which an iteration that has not met [end()] never will. *)
Class Container (C It : Type) : Type := {
  container_begin : C → M It;
  container_end : C → M It;
  it_neq : It → It → bool;
  it_incr : It → M It;
  it_deref : It → M T;
  iteration_bound : C → world → nat
}.

(** [std::initializer_list<Type>]: iterators are pointers into the
    backing array, here the array and an index. *)
Record array_ptr : Type := mkArrayPtr {
  array_of : list T;
  index_of : nat
}.

#[global] Instance initializer_list_Container : Container (list T) array_ptr := {
  container_begin values := ret (mkArrayPtr values 0);
  container_end values := ret (mkArrayPtr values (length values));
  it_neq p q := negb (index_of p =? index_of q)%nat;
  it_incr p :=
    let* _ := assert (index_of p <? length (array_of p))%nat in
    ret (mkArrayPtr (array_of p) (S (index_of p)));
  it_deref p := fun w =>
    match array_of p !! index_of p with
    | Some v => Ok v w
    | None => Undefined
    end;
  iteration_bound values _ := length values
}.

(** [SingleLinkedList<Type>] read through [ConstIterator]. *)
#[global] Instance SingleLinkedList_Container : Container N NodePtr := {
  container_begin other := cbegin other;
  container_end other := ret (cend other);
  it_neq := iterator_neq;
  it_incr := iterator_incr;
  it_deref := iterator_deref;
  iteration_bound _ w := size (heap w)
}.

Fixpoint Create_loop {C It} `{!Container C It} (fuel : nat) (container : C)
    (container_copy : N) (it : It) (insert_after_pos : NodePtr) : M unit :=
  match fuel with
  | O => diverge
  | S fuel' =>
      let* last := container_end container in
      if it_neq it last then
        let* v := it_deref it in
        let* pos' := InsertAfter container_copy insert_after_pos v in
        let* it' := it_incr it in
        Create_loop fuel' container container_copy it' pos'
      else ret tt
  end.

Definition CreateSingleLinkedList {C It} `{!Container C It} (this : N)
    (container : C) : M unit :=
  with_local construct_default (fun container_copy =>
    let insert_after_pos := before_begin container_copy in
    let* it := container_begin container in
    let* _ := (fun w =>
      Create_loop (S (iteration_bound container w)) container container_copy
        it insert_after_pos w) in
    swap this container_copy).

(** A constructor with a body: the members are initialised, then the body
    runs; when it throws, the storage is given back and no destructor of
    the class runs. *)
Definition construct_with (body : N → M unit) : M N :=
  let* this := new_object in
  let* _ := on_throw
    (let* n := read_size this in
     let* first := load_next (sentinel this) in
     let* _ := assert ((n =? 0)%Z && is_null first) in
     body this)
    (release_object this) in
  ret this.

(** [SingleLinkedList(std::initializer_list<Type> values)] *)
Definition construct_from_values (values : list T) : M N :=
  construct_with (fun this => CreateSingleLinkedList this values).

(** [SingleLinkedList(const SingleLinkedList& other)] *)
Definition construct_copy (other : N) : M N :=
  construct_with (fun this => CreateSingleLinkedList this other).

(** [operator=(const SingleLinkedList& rhs)] *)
Definition assign (this rhs : N) : M unit :=
  if negb (bool_decide (this = rhs)) then
    with_local (construct_copy rhs) (fun rhs_copy => swap this rhs_copy)
  else ret tt.

(** The free function [swap(lhs, rhs)]. *)
Definition swap_lists (lhs rhs : N) : M unit := swap lhs rhs.

(** ** Relational operators *)

(** [std::equal(first1, last1, first2)] of <algorithm>: the loop the
    standard describes, over list iterators. *)
Fixpoint std_equal (fuel : nat) (first1 last1 first2 : NodePtr) : M bool :=
  match fuel with
  | O => diverge
  | S fuel' =>
      if iterator_neq first1 last1 then
        let* x := iterator_deref first1 in
        let* y := iterator_deref first2 in
        if eqT x y then
          let* next1 := iterator_incr first1 in
          let* next2 := iterator_incr first2 in
          std_equal fuel' next1 last1 next2
        else ret false
      else ret true
  end.

(** [std::lexicographical_compare(first1, last1, first2, last2)] of
    <algorithm>, likewise. *)
Fixpoint std_lexicographical_compare (fuel : nat)
    (first1 last1 first2 last2 : NodePtr) : M bool :=
  match fuel with
  | O => diverge
  | S fuel' =>
      if iterator_neq first1 last1 && iterator_neq first2 last2 then
        let* x := iterator_deref first1 in
        let* y := iterator_deref first2 in
        if ltT x y then ret true
        else if ltT y x then ret false
        else
          let* next1 := iterator_incr first1 in
          let* next2 := iterator_incr first2 in
          std_lexicographical_compare fuel' next1 last1 next2 last2
      else ret (iterator_eq first1 last1 && iterator_neq first2 last2)
  end.

(** The loops of the algorithms get one round more than there are live
    nodes: a chain that ends has no more nodes than the heap. *)
Definition operator_eq (lhs rhs : N) : M bool :=
  let* n1 := GetSize lhs in
  let* n2 := GetSize rhs in
  if (n1 =? n2)%Z then
    let* first1 := cbegin lhs in
    let* first2 := cbegin rhs in
    fun w => std_equal (S (size (heap w))) first1 (cend lhs) first2 w
  else ret false.

Definition operator_ne (lhs rhs : N) : M bool :=
  let* b := operator_eq lhs rhs in ret (negb b).

Definition operator_lt (lhs rhs : N) : M bool :=
  let* first1 := cbegin lhs in
  let* first2 := cbegin rhs in
  fun w =>
    std_lexicographical_compare (S (size (heap w)))
      first1 (cend lhs) first2 (cend rhs) w.

Definition operator_le (lhs rhs : N) : M bool :=
  let* b := operator_lt rhs lhs in ret (negb b).

Definition operator_gt (lhs rhs : N) : M bool := operator_lt rhs lhs.

Definition operator_ge (lhs rhs : N) : M bool :=
  let* b := operator_lt lhs rhs in ret (negb b).

(** ** Abstraction: the cells of a chain *)

(** [lseg h p q cells]: following [next_node] from [p] in [h] visits the
    nodes [cells] (address and value, in order) and arrives at [q]. *)
Fixpoint lseg (h : gmap N Node) (p q : NodePtr) (cells : list (N * T)) : Prop :=
  match cells with
  | [] => p = q
  | cell :: rest =>
      p = node_at cell.1 ∧
      ∃ nx, h !! cell.1 = Some (mkNode cell.2 nx) ∧ lseg h nx q rest
  end.

(** Invariant 2 of the data model: the chain ends in null. *)
Definition chain (h : gmap N Node) (p : NodePtr) (cells : list (N * T)) : Prop :=
  lseg h p nullptr cells.

Definition head_ptr (cells : list (N * T)) : NodePtr :=
  match cells with
  | [] => nullptr
  | cell :: _ => node_at cell.1
  end.

(** The traversal as a function; [fuel] bounds the number of nodes. *)
Fixpoint walk (fuel : nat) (h : gmap N Node) (p : NodePtr)
    : option (list (N * T)) :=
  match fuel with
  | O => None
  | S fuel' =>
      match p with
      | nullptr => Some []
      | sentinel _ => None
      | node_at a =>
          match h !! a with
          | Some n =>
              match walk fuel' h (next_node n) with
              | Some rest => Some ((a, value n) :: rest)
              | None => None
              end
          | None => None
          end
      end
  end.

(** Observable state of the list object at [l]: its nodes in traversal
    order, its element sequence, its stored size. *)
Definition nodes_of (w : world) (l : N) : option (list (N * T)) :=
  match lists w !! l with
  | Some L => walk (S (size (heap w))) (heap w) (head_next_node L)
  | None => None
  end.

Definition elements_of (w : world) (l : N) : option (list T) :=
  match nodes_of w l with
  | Some cells => Some (cells.*2)
  | None => None
  end.

Definition size_of (w : world) (l : N) : option Z :=
  match lists w !! l with
  | Some L => Some (size_ L)
  | None => None
  end.

(** [represents w l cells]: the object at [l] is a list whose chain is
    [cells] and whose [size_] counts them (invariant 1). *)
Definition represents (w : world) (l : N) (cells : list (N * T)) : Prop :=
  ∃ L, lists w !! l = Some L ∧
       chain (heap w) (head_next_node L) cells ∧
       size_ L = Z.of_nat (length cells).

Definition owned_by (w : world) (l a : N) : Prop :=
  ∃ cells, represents w l cells ∧ a ∈ cells.*1.

(** The invariants of section 3 of the specification, for a whole store:
    every list object has a null-terminated chain counted by [size_], no
    node belongs to two lists, every live node belongs to a list (nothing
    leaked), and the nodes fit the address space. *)
Record wf (w : world) : Prop := mk_wf {
  wf_lists : ∀ l, is_Some (lists w !! l) → ∃ cells, represents w l cells;
  wf_disjoint : ∀ l1 l2 a, owned_by w l1 a → owned_by w l2 a → l1 = l2;
  wf_no_leak : ∀ a, is_Some (heap w !! a) → ∃ l, owned_by w l a;
  wf_space : (Z.of_nat (size (heap w)) < size_t_modulus)%Z
}.

(** A position of a list is a split of its cells: [position this pre] is
    the cursor whose successor is the first cell after [pre], that is the
    sentinel when [pre] is empty and the last node of [pre] otherwise. *)
Definition position (this : N) (pre : list (N * T)) : NodePtr :=
  match last pre with
  | Some cell => node_at cell.1
  | None => sentinel this
  end.

(** [p] is a cursor of the list at [l] on which [InsertAfter] may be
    called: [before_begin()] or a cursor to one of its nodes. *)
Definition cursor_in (w : world) (l : N) (p : NodePtr) : Prop :=
  ∃ pre post, represents w l (pre ++ post) ∧ p = position l pre.

(** ** Notions used in the statements *)

(** [list_update this c c' w w']: between [w] and [w'] the list at [this]
    went from the cells [c] to the cells [c']; nodes that joined were
    fresh, nodes that left were released, everything else is untouched. *)
Record list_update (this : N) (c c' : list (N * T)) (w w' : world) : Prop :=
  mk_list_update {
  lu_lists :
    lists w' = <[this := mkList (head_ptr c') (Z.of_nat (length c'))]> (lists w);
  lu_chain : chain (heap w') (head_ptr c') c';
  lu_fresh : ∀ a, a ∈ c'.*1 → a ∉ c.*1 → heap w !! a = None;
  lu_frame : ∀ a, a ∉ c.*1 → a ∉ c'.*1 → heap w' !! a = heap w !! a;
  lu_freed : ∀ a, a ∈ c.*1 → a ∉ c'.*1 → heap w' !! a = None
}.

Definition transpose (a b l : N) : N :=
  if decide (l = a) then b else if decide (l = b) then a else l.

(** The heap after [delete] of each address of [l], first to last. *)
Definition delete_all (l : list N) (h : gmap N Node) : gmap N Node :=
  foldl (λ h a, delete a h) h l.

(** What the loop of [CreateSingleLinkedList] leaves behind when it copies
    the elements [xs] to the end of the list at [lc]: on normal exit one
    fresh node per element, after an exception some of them. *)
Definition loop_post (lc : N) (built : list (N * T)) (xs : list T)
    (w : world) (o : outcome unit) : Prop :=
  match o with
  | Ok _ w' =>
      ∃ new, new.*2 = xs ∧ Forall (λ x, copy_throws x = false) xs ∧
             wf w' ∧ list_update lc built (built ++ new) w w'
  | Throw w' =>
      ∃ new, wf w' ∧ list_update lc built (built ++ new) w w'
  | _ => False
  end.

(** [created this new w w']: [w'] is [w] with one more list object, at
    [this], whose chain [new] consists of nodes that were not live in [w]. *)
Record created (this : N) (new : list (N * T)) (w w' : world) : Prop :=
  mk_created {
  cr_object : lists w !! this = None;
  cr_lists :
    lists w' = <[this := mkList (head_ptr new) (Z.of_nat (length new))]> (lists w);
  cr_represents : represents w' this new;
  cr_fresh : ∀ a, a ∈ new.*1 → heap w !! a = None;
  cr_frame : ∀ a, a ∉ new.*1 → heap w' !! a = heap w !! a;
  cr_other : ∀ l c, l ≠ this → represents w' l c ↔ represents w l c
}.

(** What [std::equal] computes on two ranges of the same length. *)
Fixpoint equal_elements (xs ys : list T) : bool :=
  match xs, ys with
  | [], _ => true
  | x :: xs', y :: ys' => eqT x y && equal_elements xs' ys'
  | _ :: _, [] => false
  end.

(** What [std::lexicographical_compare] computes. *)
Fixpoint lexicographical_compare (xs ys : list T) : bool :=
  match xs, ys with
  | _, [] => false
  | [], _ :: _ => true
  | x :: xs', y :: ys' =>
      if ltT x y then true
      else if ltT y x then false
      else lexicographical_compare xs' ys'
  end.

(** [same_effect o1 o2]: two calls end the same way in the same store,
    whatever they return. *)
Definition same_effect {A B} (o1 : outcome A) (o2 : outcome B) : Prop :=
  match o1, o2 with
  | Ok _ w1, Ok _ w2 => w1 = w2
  | Throw w1, Throw w2 => w1 = w2
  | Undefined, Undefined => True
  | Diverge, Diverge => True
  | _, _ => False
  end.

(** Lexicographic order of two sequences under [ltT], as the specification
    words it: at the first index [k] where the sequences are not
    equivalent, either the left one has ended and the right one has not,
    or the left element is less than the right one. *)
Definition lex_less (xs ys : list T) : Prop :=
  ∃ k : nat,
    (∀ i x y, i < k → xs !! i = Some x → ys !! i = Some y →
       ltT x y = false ∧ ltT y x = false) ∧
    ((xs !! k = None ∧ is_Some (ys !! k)) ∨
     (∃ x y, xs !! k = Some x ∧ ys !! k = Some y ∧ ltT x y = true)).

(** Equality of two sequences as the specification words it. *)
Definition pairwise_equal (xs ys : list T) : Prop :=
  ∀ i x y, xs !! i = Some x → ys !! i = Some y → eqT x y = true.

(** What a caller can see of the list at [l] once a call has ended. *)
Definition observable {A} (o : outcome A) (l : N)
    : option (option (list T) * option Z) :=
  match o with
  | Ok _ w => Some (elements_of w l, size_of w l)
  | Throw w => Some (elements_of w l, size_of w l)
  | _ => None
  end.

(** [operator<] of [Type] is a strict total order and [operator==] is the
    equality it induces. *)
Record total_order : Prop := mk_total_order {
  lt_irreflexive : ∀ x, ltT x x = false;
  lt_transitive : ∀ x y z, ltT x y = true → ltT y z = true → ltT x z = true;
  lt_trichotomy : ∀ x y, eqT x y = true ↔ ltT x y = false ∧ ltT y x = false
}.

(** [refers_into w l p]: the cursor [p] designates a position of the list
    at [l]: its before-begin position, one of its nodes, or its end. *)
Definition refers_into (w : world) (l : N) (p : NodePtr) : bool :=
  match nodes_of w l with
  | None => false
  | Some cells =>
      match p with
      | nullptr => true
      | sentinel l' => bool_decide (l' = l)
      | node_at a => bool_decide (a ∈ cells.*1)
      end
  end.

(** The contract of [swap] with the clause on cursors read literally:
    every cursor of either list, the before-begin cursors too, is a
    cursor of the other list afterwards. *)
Definition swap_contract_as_stated (w : world) (a b : N) : Prop :=
  ∃ w', swap_lists a b w = Ok tt w' ∧
    elements_of w' a = elements_of w b ∧
    elements_of w' b = elements_of w a ∧
    size_of w' a = size_of w b ∧
    size_of w' b = size_of w a ∧
    (∀ p, refers_into w a p = true → refers_into w' b p = true) ∧
    (∀ p, refers_into w b p = true → refers_into w' a p = true).

Inductive operation : Type :=
  | DefaultConstruct
  | ConstructFromValues (values : list T)
  | CopyConstruct (other : N)
  | Assign (this rhs : N)
  | Swap (this other : N)
  | Destroy (this : N)
  | CallPushFront (this : N) (v : T)
  | CallPopFront (this : N)
  | CallInsertAfter (this : N) (pos : NodePtr) (v : T)
  | CallEraseAfter (this : N) (pos : NodePtr)
  | CallClear (this : N).

Definition discard {A} (m : M A) : M unit := let* _ := m in ret tt.

Definition perform (o : operation) : M unit :=
  match o with
  | DefaultConstruct => discard construct_default
  | ConstructFromValues values => discard (construct_from_values values)
  | CopyConstruct other => discard (construct_copy other)
  | Assign this rhs => assign this rhs
  | Swap this other => swap_lists this other
  | Destroy this => destroy this
  | CallPushFront this v => PushFront this v
  | CallPopFront this => PopFront this
  | CallInsertAfter this pos v => discard (InsertAfter this pos v)
  | CallEraseAfter this pos => discard (EraseAfter this pos)
  | CallClear this => Clear this
  end.

Definition live (w : world) (l : N) : Prop := is_Some (lists w !! l).

(** The calls a program may make: on live objects, and for the positional
    operations with a cursor of the list they are called on.  The other
    preconditions are the [assert]s of the code: a call that violates one
    does not return and makes no step. *)
Definition admissible (w : world) (o : operation) : Prop :=
  match o with
  | DefaultConstruct => True
  | ConstructFromValues _ => True
  | CopyConstruct other => live w other
  | Assign this rhs => live w this ∧ live w rhs
  | Swap this other => live w this ∧ live w other
  | Destroy this => live w this
  | CallPushFront this _ => live w this
  | CallPopFront this => live w this
  | CallInsertAfter this pos _ => cursor_in w this pos
  | CallEraseAfter this pos => cursor_in w this pos
  | CallClear this => live w this
  end.

Inductive step (w w' : world) : Prop :=
  | step_returns o :
      admissible w o → perform o w = Ok tt w' → step w w'
  | step_throws o :
      admissible w o → perform o w = Throw w' → step w w'.

Definition reachable (w : world) : Prop := rtc step empty_world w.

(** The calls the code lets through: [InsertAfter] and [EraseAfter] assert
    that [pos] is not null and never look at the list [pos] belongs to, so
    a cursor of another list is taken as well. *)
Definition unchecked (w : world) (o : operation) : Prop :=
  match o with
  | CallInsertAfter this _ _ => live w this
  | CallEraseAfter this _ => live w this
  | _ => admissible w o
  end.

Inductive unchecked_step (w w' : world) : Prop :=
  | unchecked_returns o :
      unchecked w o → perform o w = Ok tt w' → unchecked_step w w'
  | unchecked_throws o :
      unchecked w o → perform o w = Throw w' → unchecked_step w w'.

Definition reachable_unchecked (w : world) : Prop :=
  rtc unchecked_step empty_world w.

(** The invariant on [IsEmpty] read over every sequence of calls of the
    public operations that return or throw, whatever cursor they are
    given. *)
Definition IsEmpty_contract_as_stated : Prop :=
  ∀ w l L, reachable_unchecked w → lists w !! l = Some L →
    ∃ b p, IsEmpty l w = Ok b w ∧ begin l w = Ok p w ∧
           (b = true ↔ iterator_eq p (end_ l) = true).

(** For test programs: the observable state of a list as a value, and the
    value a program returns. *)
Definition observe (l : N) : M (option (list T) * option Z) := fun w =>
  Ok (elements_of w l, size_of w l) w.

Definition returned {A} (o : outcome A) : option A :=
  match o with
  | Ok a _ => Some a
  | _ => None
  end.

(** [k] times [++it]. *)
Fixpoint advance (k : nat) (it : NodePtr) : M NodePtr :=
  match k with
  | O => ret it
  | S k' => let* next := iterator_incr it in advance k' next
  end.

End Model.

Arguments Ok {Elem A} a w.
Arguments Throw {Elem A} w.
Arguments Undefined {Elem A}.
Arguments Diverge {Elem A}.
Arguments mkNode {Elem} value next_node.
Arguments mkWorld {Elem} lists heap.
Arguments mkArrayPtr {Elem} array_of index_of.

Notation "'let*' x ':=' m 'in' k" := (bind m (fun x => k))
  (at level 10, x name, m at level 100, k at level 200).

(** Tactics that run the monadic code of a member function once the
    lookups it makes are known. *)
Ltac run_step :=
  repeat first
    [ progress simpl
    | rewrite lookup_insert_eq
    | match goal with
      | H : ?x = _ |- context [match ?x with _ => _ end] => rewrite H
      end
    | rewrite lookup_insert_ne by done
    | rewrite lookup_delete_ne by done ].

Ltac run_unfold :=
  unfold bind, ret, assert, load_next, load_value, store_next, new_Node,
    delete_Node, incr_size, decr_size, read_size, write_size.

Ltac run := repeat (progress (run_unfold; run_step)).

(** ** Elements and stores used as examples *)

(** [int] elements; copying the value 13 throws. *)
Definition int_elements : ElementType :=
  {| T := Z; eqT := Z.eqb; ltT := Z.ltb; copy_throws := λ z, (z =? 13)%Z |}.

(** An allocator with room for seven nodes. *)
Definition seven_nodes : @Allocator int_elements :=
  {| alloc_fails := λ h, bool_decide (7 ≤ size h) |}.

Definition int_node (v : Z) (next : NodePtr) : @Node int_elements :=
  @mkNode int_elements v next.

Definition int_values (l : list Z) : list (@T int_elements) := l.

Definition int_cells (l : list (N * Z)) : list (N * @T int_elements) := l.

(** The store after [SingleLinkedList<int> a{1, 2, 3};]: the list object
    at address 0, its nodes at 0, 1 and 2. *)
Definition one_list : @world int_elements :=
  mkWorld
    (<[0%N := mkList (node_at 0) 3]> ∅)
    (list_to_map
       [(0%N, int_node 1 (node_at 1)); (1%N, int_node 2 (node_at 2));
        (2%N, int_node 3 nullptr)]).

(** The store after [SingleLinkedList<int> a{1, 2, 3}, b{9, 8};]. *)
Definition two_lists : @world int_elements :=
  mkWorld
    (<[0%N := mkList (node_at 0) 3]> (<[1%N := mkList (node_at 3) 2]> ∅))
    (list_to_map
       [(0%N, int_node 1 (node_at 1)); (1%N, int_node 2 (node_at 2));
        (2%N, int_node 3 nullptr);
        (3%N, int_node 9 (node_at 4)); (4%N, int_node 8 nullptr)]).

(** The store after [SingleLinkedList<int> e;]: one empty list at
    address 0. *)
Definition one_empty_list : @world int_elements :=
  mkWorld (<[0%N := mkList nullptr 0]> ∅) ∅.

(** The store after [SingleLinkedList<int> a, b{9, 8};]: the empty list
    [a] at address 0, [b] at address 1 with its nodes at 0 and 1. *)
Definition empty_and_pair : @world int_elements :=
  mkWorld
    (<[0%N := mkList nullptr 0]> (<[1%N := mkList (node_at 0) 2]> ∅))
    (list_to_map
       [(0%N, int_node 9 (node_at 1)); (1%N, int_node 8 nullptr)]).

(** The store after [a.InsertAfter(b.before_begin(), 5)] in
    [empty_and_pair]: the new node, at 2, heads the chain of [b], and the
    size that went up is that of [a]. *)
Definition foreign_insert : @world int_elements :=
  mkWorld
    (<[0%N := mkList nullptr 1]> (<[1%N := mkList (node_at 2) 2]> ∅))
    (list_to_map
       [(0%N, int_node 9 (node_at 1)); (1%N, int_node 8 nullptr);
        (2%N, int_node 5 (node_at 0))]).

Definition cells_a : list (N * @T int_elements) :=
  int_cells [(0%N, 1%Z); (1%N, 2%Z); (2%N, 3%Z)].

Definition cells_b : list (N * @T int_elements) :=
  int_cells [(3%N, 9%Z); (4%N, 8%Z)].

Section Proofs.

Context {Elem : ElementType} {Alloc : Allocator}.

(** ** Lemmas on chains *)

Lemma lseg_head h p cells : chain h p cells → p = head_ptr cells.
Proof. destruct cells as [|[a v] rest]; simpl; [done | by intros [-> _]]. Qed.

Lemma lseg_frame h h' p q cells :
  (∀ a, a ∈ cells.*1 → h' !! a = h !! a) →
  lseg h p q cells → lseg h' p q cells.
Proof.
  revert p. induction cells as [|[a v] rest IH]; intros p Hagree; simpl; [done|].
  intros [-> (nx & Ha & Hrest)]. split; [done|]. exists nx. split.
  - rewrite Hagree; [done | simpl; left].
  - apply IH; [|done]. intros b Hb. apply Hagree. simpl. by right.
Qed.

Lemma lseg_app h p q c1 c2 :
  lseg h p q (c1 ++ c2) ↔ ∃ r, lseg h p r c1 ∧ lseg h r q c2.
Proof.
  revert p. induction c1 as [|[a v] rest IH]; intros p; simpl.
  - split; [intros H; by exists p | by intros (r & -> & H)].
  - split.
    + intros [-> (nx & Ha & Hrest)]. apply IH in Hrest as (r & H1 & H2).
      exists r. split; [|done]. split; [done|]. by exists nx.
    + intros (r & [-> (nx & Ha & H1)] & H2). split; [done|].
      exists nx. split; [done|]. apply IH. by exists r.
Qed.

Lemma chain_inj h p c1 c2 : chain h p c1 → chain h p c2 → c1 = c2.
Proof.
  unfold chain. revert p c2.
  induction c1 as [|[a v] rest IH]; intros p [|[b u] rest2]; simpl; try done.
  - by intros -> [? _].
  - by intros [-> _] ?.
  - intros [-> (nx & Ha & H1)] [[= <-] (nx2 & Hb & H2)].
    rewrite Ha in Hb. injection Hb as <- <-. f_equal. by eapply IH.
Qed.

Lemma chain_suffix_neq h a nx v pre rest :
  h !! a = Some (mkNode v nx) →
  chain h nx (pre ++ (a, v) :: rest) → False.
Proof.
  intros Ha Hc.
  assert (Hlen : ∀ n c p, length c = n → chain h p c →
            ∀ pre', chain h p (pre' ++ c) → pre' = []).
  { clear. intros n c p _ H1 pre' H2.
    pose proof (chain_inj _ _ _ _ H1 H2) as E.
    apply (f_equal length) in E. rewrite length_app in E.
    destruct pre'; [done | simpl in E; lia]. }
  apply lseg_app in Hc as Hs. destruct Hs as (r & _ & [-> (nx' & Ha' & Hrest)]).
  simpl in Ha'. rewrite Ha in Ha'. injection Ha' as <-.
  specialize (Hlen _ _ _ eq_refl Hrest (pre ++ [(a, v)])).
  rewrite <- app_assoc in Hlen. simpl in Hlen. specialize (Hlen Hc).
  by destruct pre.
Qed.

Lemma chain_NoDup h p cells : chain h p cells → NoDup cells.*1.
Proof.
  revert p. induction cells as [|[a v] rest IH]; intros p; simpl.
  - intros _. constructor.
  - intros [-> (nx & Ha & Hrest)]. constructor; [|by eapply IH].
    intros Hin. apply list_elem_of_fmap in Hin as ([b u] & Heq & Hin).
    simpl in Heq. subst b.
    apply list_elem_of_split in Hin as (pre & post & ->).
    assert (u = v) as ->.
    { apply lseg_app in Hrest as (r & _ & [_ (nx' & Ha' & _)]).
      simpl in *. rewrite Ha in Ha'. by injection Ha' as <- _. }
    by eapply chain_suffix_neq.
Qed.

Lemma chain_live h p cells a :
  chain h p cells → a ∈ cells.*1 → is_Some (h !! a).
Proof.
  revert p. induction cells as [|[b v] rest IH]; intros p; simpl.
  - intros _ Hin. by apply elem_of_nil in Hin.
  - intros [-> (nx & Hb & Hrest)] Hin. simpl in *.
    apply elem_of_cons in Hin as [->|Hin]; [by eexists | by eapply IH].
Qed.

Lemma chain_length_le h p cells : chain h p cells → length cells ≤ size h.
Proof.
  intros Hc. rewrite <- size_dom. unfold size, set_size. simpl.
  rewrite <- (length_fmap fst cells).
  apply submseteq_length, NoDup_submseteq; [by eapply chain_NoDup|].
  intros a Hin. apply elem_of_elements, elem_of_dom. by eapply chain_live.
Qed.

Lemma walk_chain fuel h p cells : walk fuel h p = Some cells → chain h p cells.
Proof.
  revert p cells. induction fuel as [|fuel IH]; intros p cells; simpl; [done|].
  destruct p as [| |a]; try done.
  - by intros [= <-].
  - destruct (h !! a) as [n|] eqn:Ha; [|done].
    destruct (walk fuel h (next_node n)) as [rest|] eqn:Hw; [|done].
    intros [= <-]. split; [done|]. exists (next_node n). split.
    + simpl. rewrite Ha. by destruct n.
    + by apply IH.
Qed.

Lemma chain_walk fuel h p cells :
  chain h p cells → length cells < fuel → walk fuel h p = Some cells.
Proof.
  revert p cells. induction fuel as [|fuel IH]; intros p cells Hc Hlt; [lia|].
  destruct cells as [|[a v] rest]; simpl in *.
  - by rewrite Hc.
  - destruct Hc as [-> (nx & Ha & Hrest)]. rewrite Ha. simpl.
    rewrite (IH nx rest); [done | done | lia].
Qed.

Lemma represents_nodes_of w l cells :
  represents w l cells → nodes_of w l = Some cells.
Proof.
  intros (L & HL & Hc & _). unfold nodes_of. rewrite HL.
  apply chain_walk; [done|]. apply chain_length_le in Hc. lia.
Qed.

Lemma represents_elements_of w l cells :
  represents w l cells → elements_of w l = Some cells.*2.
Proof.
  intros H. unfold elements_of. by rewrite (represents_nodes_of _ _ _ H).
Qed.

Lemma represents_size_of w l cells :
  represents w l cells → size_of w l = Some (Z.of_nat (length cells)).
Proof. intros (L & HL & _ & Hs). unfold size_of. by rewrite HL, Hs. Qed.

Lemma represents_inj w l c1 c2 :
  represents w l c1 → represents w l c2 → c1 = c2.
Proof.
  intros (L1 & HL1 & Hc1 & _) (L2 & HL2 & Hc2 & _).
  rewrite HL1 in HL2. injection HL2 as <-. by eapply chain_inj.
Qed.

Lemma represents_bound w l cells :
  wf w → represents w l cells → (Z.of_nat (length cells) < size_t_modulus)%Z.
Proof.
  intros Hwf (L & _ & Hc & _). apply chain_length_le in Hc.
  pose proof (wf_space _ Hwf). lia.
Qed.

Lemma nodes_of_represents w l cells :
  nodes_of w l = Some cells → size_of w l = Some (Z.of_nat (length cells)) →
  represents w l cells.
Proof.
  unfold nodes_of, size_of. destruct (lists w !! l) as [L|] eqn:HL; [|done].
  intros Hwalk [= Hs]. exists L. split; [done|]. split; [|done].
  by eapply walk_chain.
Qed.

(** ** Updates of one list *)

Lemma represents_object w l cells L :
  represents w l cells → lists w !! l = Some L →
  L = mkList (head_ptr cells) (Z.of_nat (length cells)).
Proof.
  intros (L' & HL' & Hc & Hs) HL. rewrite HL in HL'. injection HL' as <-.
  destruct L as [p n]. simpl in *. by rewrite (lseg_head _ _ _ Hc), Hs.
Qed.

Lemma list_update_refl w this c : represents w this c → list_update this c c w w.
Proof.
  intros Hr. pose proof Hr as (L & HL & Hc & Hs). split; try done.
  - rewrite <- (represents_object _ _ _ _ Hr HL). by rewrite insert_id.
  - by rewrite <- (lseg_head _ _ _ Hc).
Qed.

Lemma list_update_represents w w' this c c' :
  list_update this c c' w w' → represents w' this c'.
Proof.
  intros [Hl Hc _ _ _]. eexists. rewrite Hl, lookup_insert_eq. by split.
Qed.

Lemma list_update_trans w1 w2 w3 this c1 c2 c3 :
  list_update this c1 c2 w1 w2 → list_update this c2 c3 w2 w3 →
  list_update this c1 c3 w1 w3.
Proof.
  intros [Hl1 Hc1 Hn1 Hf1 Hd1] [Hl2 Hc2 Hn2 Hf2 Hd2]. split.
  - by rewrite Hl2, Hl1, insert_insert_eq.
  - done.
  - intros a H3 H1. destruct (decide (a ∈ c2.*1)) as [H2|H2].
    + by apply Hn1.
    + rewrite <- Hf1 by done. by apply Hn2.
  - intros a H1 H3. destruct (decide (a ∈ c2.*1)) as [H2|H2].
    + rewrite Hd2, Hn1 by done. done.
    + rewrite Hf2, Hf1 by done. done.
  - intros a H1 H3. destruct (decide (a ∈ c2.*1)) as [H2|H2].
    + by apply Hd2.
    + rewrite Hf2 by done. by apply Hd1.
Qed.

Lemma list_update_other w w' this c c' l c2 :
  wf w → represents w this c → list_update this c c' w w' →
  l ≠ this → represents w l c2 → represents w' l c2.
Proof.
  intros Hwf Hthis [Hl Hc Hn Hf Hd] Hne (L & HL & Hc2 & Hs).
  exists L. rewrite Hl, lookup_insert_ne by done. split_and!; try done.
  eapply lseg_frame; [|exact Hc2]. intros a Ha. apply Hf.
  - intros Hin. apply Hne. eapply (wf_disjoint _ Hwf _ _ a).
    + exists c2. split; [by exists L | done].
    + by exists c.
  - intros Hin. destruct (decide (a ∈ c.*1)) as [Hin1|Hin1].
    + apply Hne. eapply (wf_disjoint _ Hwf _ _ a).
      * exists c2. split; [by exists L | done].
      * by exists c.
    + specialize (Hn a Hin Hin1).
      destruct (chain_live _ _ _ _ Hc2 Ha) as [? ?]. congruence.
Qed.

Lemma list_update_other_inv w w' this c c' l c2 :
  wf w → represents w this c → list_update this c c' w w' →
  l ≠ this → represents w' l c2 → represents w l c2.
Proof.
  intros Hwf Hthis Hu Hne Hr'. pose proof Hr' as (L & HL & _).
  rewrite (lu_lists _ _ _ _ _ Hu), lookup_insert_ne in HL by done.
  destruct (wf_lists _ Hwf l) as [c0 Hr0]; [by eexists|].
  pose proof (list_update_other _ _ _ _ _ _ _ Hwf Hthis Hu Hne Hr0) as Hr0'.
  by rewrite (represents_inj _ _ _ _ Hr' Hr0').
Qed.

Lemma list_update_wf w w' this c c' :
  wf w → represents w this c → list_update this c c' w w' →
  (Z.of_nat (size (heap w')) < size_t_modulus)%Z → wf w'.
Proof.
  intros Hwf Hthis Hu Hsp. pose proof Hu as [Hl Hc Hn Hf Hd].
  pose proof (list_update_represents _ _ _ _ _ Hu) as Hthis'.
  assert (Hown : ∀ l a, owned_by w' l a →
            if decide (l = this) then a ∈ c'.*1 else owned_by w l a).
  { intros l a (c0 & Hr0 & Hin). case_decide as Hl0.
    - subst l. by rewrite <- (represents_inj _ _ _ _ Hr0 Hthis').
    - exists c0. split; [|done]. by apply (list_update_other_inv _ _ _ _ _ _ _ Hwf Hthis Hu). }
  assert (Hcross : ∀ l a, l ≠ this → owned_by w l a → a ∈ c'.*1 → False).
  { intros l a Hne (c0 & Hr0 & Hin) Hin'.
    destruct (decide (a ∈ c.*1)) as [Hin1|Hin1].
    - apply Hne. eapply (wf_disjoint _ Hwf _ _ a); [by exists c0 | by exists c].
    - specialize (Hn a Hin' Hin1). destruct Hr0 as (L & _ & Hc0 & _).
      destruct (chain_live _ _ _ _ Hc0 Hin) as [? ?]. congruence. }
  split; [| | |done].
  - intros l [L HL]. destruct (decide (l = this)) as [->|Hne]; [by exists c'|].
    rewrite Hl, lookup_insert_ne in HL by done.
    destruct (wf_lists _ Hwf l) as [c0 Hr0]; [by eexists|].
    exists c0. by apply (list_update_other _ _ _ _ _ _ _ Hwf Hthis Hu).
  - intros l1 l2 a H1 H2. apply Hown in H1, H2.
    destruct (decide (l1 = this)) as [->|Hne1];
      destruct (decide (l2 = this)) as [->|Hne2]; try done.
    + exfalso. by eapply Hcross.
    + exfalso. by eapply Hcross.
    + by eapply (wf_disjoint _ Hwf).
  - intros a Hlive. destruct (decide (a ∈ c'.*1)) as [Hin'|Hin'].
    { exists this, c'. by split. }
    destruct (decide (a ∈ c.*1)) as [Hin|Hin].
    { rewrite Hd in Hlive by done. by destruct Hlive. }
    rewrite Hf in Hlive by done.
    destruct (wf_no_leak _ Hwf a Hlive) as (l & c0 & Hr0 & Hin0).
    assert (l ≠ this) as Hne.
    { intros ->. by rewrite (represents_inj _ _ _ _ Hr0 Hthis) in Hin0. }
    exists l, c0. split; [|done]. by apply (list_update_other _ _ _ _ _ _ _ Hwf Hthis Hu).
Qed.

(** ** Steps of the member functions *)

Lemma operator_new_Some h a :
  operator_new h = Some a →
  h !! a = None ∧ (Z.of_nat (size h) + 1 < size_t_modulus)%Z.
Proof.
  unfold operator_new. destruct (alloc_fails h); [done|].
  destruct (Z.ltb_spec (Z.of_nat (size h) + 1) size_t_modulus); [|done].
  intros [= <-]. split; [|done].
  apply not_elem_of_dom, is_fresh.
Qed.

Lemma position_nil this : position this [] = sentinel this.
Proof. done. Qed.

Lemma position_snoc this pre b v : position this (pre ++ [(b, v)]) = node_at b.
Proof. unfold position. by rewrite last_snoc. Qed.

Lemma fmap_fst_app_cons (pre post : list (N * T)) a v :
  (pre ++ (a, v) :: post).*1 = pre.*1 ++ a :: post.*1.
Proof. by rewrite fmap_app. Qed.

Lemma chain_split h p pre b vb post :
  chain h p (pre ++ (b, vb) :: post) →
  lseg h p (node_at b) pre ∧
  ∃ nx, h !! b = Some (mkNode vb nx) ∧ chain h nx post.
Proof.
  intros Hc. apply lseg_app in Hc as (r & Hpre & [-> (nx & Hb & Hpost)]).
  split; [done|]. by exists nx.
Qed.

Lemma chain_join h p pre b vb nx post :
  lseg h p (node_at b) pre → h !! b = Some (mkNode vb nx) → chain h nx post →
  chain h p (pre ++ (b, vb) :: post).
Proof.
  intros Hpre Hb Hpost. apply lseg_app. exists (node_at b).
  split; [done|]. split; [done|]. by exists nx.
Qed.

Lemma head_ptr_app_cons (pre post : list (N * T)) b vb x :
  head_ptr ((pre ++ [(b, vb)]) ++ x :: post) = head_ptr ((pre ++ [(b, vb)]) ++ post).
Proof. by destruct pre. Qed.

Lemma InsertAfter_spec w this pre post v :
  wf w → represents w this (pre ++ post) →
  match InsertAfter this (position this pre) v w with
  | Ok p w' =>
      ∃ a, p = node_at a ∧ copy_throws v = false ∧ wf w' ∧
           list_update this (pre ++ post) (pre ++ (a, v) :: post) w w'
  | Throw w' => w' = w
  | _ => False
  end.
Proof.
  intros Hwf Hr. pose proof Hr as (L & HL & Hc & Hs).
  pose proof (chain_NoDup _ _ _ Hc) as Hnd.
  pose proof (chain_length_le _ _ _ Hc) as Hlen.
  pose proof (lseg_head _ _ _ Hc) as Hhead.
  assert (Hsize : ∀ a n, heap w !! a = None →
            (Z.of_nat (size (heap w)) + 1 < size_t_modulus)%Z →
            (Z.of_nat (size (<[a := n]> (heap w))) < size_t_modulus)%Z).
  { intros a n Hfresh Hspace. rewrite map_size_insert_None by done. lia. }
  assert (Hcount : ∀ a, (Z.of_nat (size (heap w)) + 1 < size_t_modulus)%Z →
            ((size_ L + 1) mod size_t_modulus)%Z
            = Z.of_nat (length (pre ++ (a, v) :: post))).
  { intros a Hspace. rewrite Hs, !length_app. simpl.
    rewrite length_app in Hlen. rewrite Z.mod_small; lia. }
  induction pre as [|[b vb] pre _] using rev_ind.
  - simpl in *. unfold InsertAfter. run.
    destruct (operator_new (heap w)) as [a|] eqn:Hnew; [|done].
    destruct (copy_throws v) eqn:Hcp; [done|].
    apply operator_new_Some in Hnew as [Hfresh Hspace]. run.
    exists a. split; [done|]. split; [done|].
    assert (list_update this post ((a, v) :: post) w
      (mkWorld
         (<[this := mkList (node_at a) ((size_ L + 1) mod size_t_modulus)]>
            (<[this := mkList (node_at a) (size_ L)]> (lists w)))
         (<[a := mkNode v (head_next_node L)]> (heap w)))) as Hu.
    { split; simpl.
      - rewrite insert_insert_eq. by rewrite (Hcount a Hspace).
      - split; [done|]. exists (head_next_node L). rewrite lookup_insert_eq.
        split; [done|]. eapply lseg_frame; [|exact Hc].
        intros a' Ha'. rewrite lookup_insert_ne; [done|]. intros ->.
        destruct (chain_live _ _ _ _ Hc Ha'). congruence.
      - intros a' Hin Hnot. apply elem_of_cons in Hin as [->|?]; done.
      - intros a' Hnot Hnot'. rewrite lookup_insert_ne; [done|].
        intros ->. apply Hnot'. left.
      - intros a' Hin Hnot. exfalso. apply Hnot. by right. }
    split; [|done]. eapply list_update_wf; [exact Hwf | exact Hr | exact Hu |].
    simpl. by apply Hsize.
  - rewrite position_snoc. rewrite <- app_assoc in Hc. simpl in Hc.
    apply chain_split in Hc as Hsplit. destruct Hsplit as (Hpre & nx & Hb & Hpost).
    rewrite <- app_assoc in Hnd. simpl in Hnd. rewrite fmap_fst_app_cons in Hnd.
    apply NoDup_app in Hnd as (Hndpre & Hbpre & Hndpost).
    apply NoDup_cons in Hndpost as (Hbpost & Hndpost).
    unfold InsertAfter. run.
    destruct (operator_new (heap w)) as [a|] eqn:Hnew; [|done].
    destruct (copy_throws v) eqn:Hcp; [done|].
    apply operator_new_Some in Hnew as [Hfresh Hspace].
    assert (a ≠ b) as Hab by congruence. run.
    exists a. split; [done|]. split; [done|].
    assert (list_update this ((pre ++ [(b, vb)]) ++ post)
              ((pre ++ [(b, vb)]) ++ (a, v) :: post) w
      (mkWorld
         (<[this := mkList (head_next_node L) ((size_ L + 1) mod size_t_modulus)]>
            (lists w))
         (<[b := mkNode vb (node_at a)]> (<[a := mkNode v nx]> (heap w))))) as Hu.
    { split; simpl.
      - rewrite (Hcount a Hspace), head_ptr_app_cons. by rewrite <- Hhead.
      - rewrite head_ptr_app_cons, <- Hhead, <- app_assoc. simpl.
        eapply chain_join.
        + eapply lseg_frame; [|exact Hpre]. intros a' Ha'.
          rewrite !lookup_insert_ne; [done | |].
          * intros ->. 
            assert (is_Some (heap w !! a')) as [? ?]; [|congruence].
            eapply chain_live; [exact Hc|]. rewrite fmap_fst_app_cons.
            apply elem_of_app. by left.
          * intros ->. by eapply Hbpre; [exact Ha'| left].
        + by rewrite lookup_insert_eq.
        + split; [done|]. exists nx. simpl.
          rewrite lookup_insert_ne, lookup_insert_eq by done. split; [done|].
          eapply lseg_frame; [|exact Hpost]. intros a' Ha'.
          rewrite !lookup_insert_ne; [done | |].
          * intros ->. destruct (chain_live _ _ _ _ Hpost Ha'). congruence.
          * by intros ->.
      - intros a' Hin Hnot. rewrite !fmap_app in Hin, Hnot.
        simpl in Hin, Hnot. clear -Hin Hnot Hfresh. set_solver.
      - intros a' Hnot Hnot'. rewrite !fmap_app in Hnot'.
        simpl in Hnot'. clear -Hnot'.
        rewrite !lookup_insert_ne; [done| |]; set_solver.
      - intros a' Hin Hnot. rewrite !fmap_app in Hin, Hnot.
        simpl in Hin, Hnot. clear -Hin Hnot. set_solver. }
    split; [|done]. eapply list_update_wf; [exact Hwf | exact Hr | exact Hu |].
    simpl. rewrite map_size_insert_Some.
    + by apply Hsize.
    + by rewrite lookup_insert_ne.
Qed.

Lemma PushFront_InsertAfter w this v :
  PushFront this v w =
  (let* _ := InsertAfter this (before_begin this) v in ret tt) w.
Proof.
  unfold PushFront, InsertAfter, before_begin. run.
  destruct (lists w !! this) as [L|] eqn:HL; run; [|done].
  destruct (operator_new (heap w)) as [a|]; [|done].
  destruct (copy_throws v); [done|]. by run.
Qed.

Lemma PushFront_spec w this cells v :
  wf w → represents w this cells →
  match PushFront this v w with
  | Ok _ w' =>
      ∃ a, copy_throws v = false ∧ wf w' ∧
           list_update this cells ((a, v) :: cells) w w'
  | Throw w' => w' = w
  | _ => False
  end.
Proof.
  intros Hwf Hr. rewrite PushFront_InsertAfter. unfold bind, before_begin.
  pose proof (InsertAfter_spec w this [] cells v Hwf Hr) as H.
  rewrite position_nil in H. simpl in H.
  destruct (InsertAfter this (sentinel this) v w) as [p w'| | |]; try done.
  destruct H as (a & _ & H). by exists a.
Qed.

Lemma EraseAfter_spec w this pre rest :
  wf w → represents w this (pre ++ rest) →
  match EraseAfter this (position this pre) w with
  | Ok p w' =>
      ∃ d vd post, rest = (d, vd) :: post ∧ p = head_ptr post ∧ wf w' ∧
           list_update this (pre ++ rest) (pre ++ post) w w'
  | Undefined => rest = []
  | _ => False
  end.
Proof.
  intros Hwf Hr. pose proof Hr as (L & HL & Hc & Hs).
  pose proof (chain_NoDup _ _ _ Hc) as Hnd.
  pose proof (represents_bound _ _ _ Hwf Hr) as Hlen.
  pose proof (lseg_head _ _ _ Hc) as Hhead.
  assert (Hsize : ∀ d, is_Some (heap w !! d) →
            (Z.of_nat (size (delete d (heap w))) < size_t_modulus)%Z).
  { intros d [n Hd]. pose proof (map_size_delete_Some d (heap w) (ex_intro _ n Hd)).
    pose proof (wf_space _ Hwf). lia. }
  assert (Hcount : ∀ x post, rest = x :: post →
            ((size_ L - 1) mod size_t_modulus)%Z
            = Z.of_nat (length (pre ++ post))).
  { intros x post ->. rewrite Hs. rewrite !length_app in *. simpl in *.
    rewrite Z.mod_small; lia. }
  induction pre as [|[b vb] pre _] using rev_ind.
  - simpl in *. unfold EraseAfter. run.
    destruct rest as [|[d vd] post].
    { simpl in *. rewrite Hs. simpl. done. }
    destruct Hc as [Hfirst (nx & Hd & Hpost)]. simpl in *.
    apply NoDup_cons in Hnd as (Hdpost & Hndpost).
    destruct (Z.eqb_spec (size_ L) 0) as [Hz|_]; [lia|]. run.
    exists d, vd, post. split; [done|]. split; [by apply lseg_head in Hpost|].
    assert (list_update this ((d, vd) :: post) post w
      (mkWorld
         (<[this := mkList nx ((size_ L - 1) mod size_t_modulus)]>
            (<[this := mkList nx (size_ L)]> (lists w)))
         (delete d (heap w)))) as Hu.
    { split; simpl.
      - rewrite insert_insert_eq, (Hcount _ _ eq_refl).
        by rewrite (lseg_head _ _ _ Hpost).
      - rewrite <- (lseg_head _ _ _ Hpost).
        eapply lseg_frame; [|exact Hpost]. intros a' Ha'.
        rewrite lookup_delete_ne; [done|]. by intros ->.
      - intros a' Hin Hnot. exfalso. apply Hnot. by right.
      - intros a' Hnot _. rewrite lookup_delete_ne; [done|].
        intros ->. apply Hnot. left.
      - intros a' Hin Hnot. apply elem_of_cons in Hin as [->|?]; [|done].
        apply lookup_delete_eq. }
    split; [|done]. eapply list_update_wf; [exact Hwf | exact Hr | exact Hu |].
    simpl. apply Hsize. by eexists.
  - rewrite position_snoc. rewrite <- app_assoc in Hc. simpl in Hc.
    apply chain_split in Hc as Hsplit. destruct Hsplit as (Hpre & nx & Hb & Hrest).
    rewrite <- app_assoc in Hnd. simpl in Hnd. rewrite fmap_fst_app_cons in Hnd.
    apply NoDup_app in Hnd as (Hndpre & Hbpre & Hndpost).
    apply NoDup_cons in Hndpost as (Hbpost & Hndpost).
    unfold EraseAfter. run.
    destruct (Z.eqb_spec (size_ L) 0) as [Hz|_].
    { rewrite Hs, !length_app in Hz. simpl in Hz. lia. }
    run.
    destruct rest as [|[d vd] post].
    { simpl in Hrest. rewrite Hrest. by run. }
    destruct Hrest as [Hfirst (nx' & Hd & Hpost)]. simpl in *.
    apply NoDup_cons in Hndpost as (Hdpost & Hndpost).
    assert (b ≠ d) as Hbd. { intros ->. apply Hbpost. left. }
    rewrite Hfirst. run.
    exists d, vd, post. split; [done|]. split; [by apply lseg_head in Hpost|].
    assert (list_update this ((pre ++ [(b, vb)]) ++ (d, vd) :: post)
              ((pre ++ [(b, vb)]) ++ post) w
      (mkWorld
         (<[this := mkList (head_next_node L) ((size_ L - 1) mod size_t_modulus)]>
            (lists w))
         (<[b := mkNode vb nx']> (delete d (heap w))))) as Hu.
    { split; simpl.
      - rewrite (Hcount _ _ eq_refl). rewrite <- (head_ptr_app_cons _ _ _ _ (d, vd)).
        by rewrite <- Hhead.
      - rewrite <- (head_ptr_app_cons _ _ _ _ (d, vd)), <- Hhead, <- app_assoc.
        simpl. eapply chain_join.
        + eapply lseg_frame; [|exact Hpre]. intros a' Ha'.
          rewrite lookup_insert_ne, lookup_delete_ne; [done | |].
          * intros ->. eapply Hbpre; [exact Ha'|]. right. left.
          * intros ->. by eapply Hbpre; [exact Ha'| left].
        + by rewrite lookup_insert_eq.
        + eapply lseg_frame; [|exact Hpost]. intros a' Ha'.
          rewrite lookup_insert_ne, lookup_delete_ne; [done | |].
          * by intros ->.
          * intros ->. apply Hbpost. by right.
      - intros a' Hin Hnot. rewrite !fmap_app in Hin, Hnot.
        simpl in Hin, Hnot. clear -Hin Hnot. set_solver.
      - intros a' Hnot Hnot'. rewrite !fmap_app in Hnot.
        simpl in Hnot. clear -Hnot.
        rewrite lookup_insert_ne, lookup_delete_ne; [done| |]; set_solver.
      - intros a' Hin Hnot. rewrite !fmap_app in Hin, Hnot.
        simpl in Hin, Hnot.
        assert (a' = d) as -> by (clear -Hin Hnot; set_solver).
        rewrite lookup_insert_ne, lookup_delete_eq; done. }
    split; [|done]. eapply list_update_wf; [exact Hwf | exact Hr | exact Hu |].
    simpl. rewrite map_size_insert_Some.
    + apply Hsize. by eexists.
    + by rewrite lookup_delete_ne.
Qed.

Lemma PopFront_EraseAfter w this :
  PopFront this w = (let* _ := EraseAfter this (before_begin this) in ret tt) w.
Proof.
  unfold PopFront, EraseAfter, before_begin. run.
  destruct (lists w !! this) as [L|] eqn:HL; run; [|done].
  destruct (negb (size_ L =? 0)%Z); run; [|done].
  destruct (head_next_node L) as [|l|a] eqn:Hh; run.
  - done.
  - by destruct (lists w !! l).
  - destruct (heap w !! a) as [n|] eqn:Ha; by run.
Qed.

Lemma PopFront_spec w this cells :
  wf w → represents w this cells →
  match PopFront this w with
  | Ok _ w' =>
      ∃ x post, cells = x :: post ∧ wf w' ∧ list_update this cells post w w'
  | Undefined => cells = []
  | _ => False
  end.
Proof.
  intros Hwf Hr. rewrite PopFront_EraseAfter. unfold bind, before_begin.
  pose proof (EraseAfter_spec w this [] cells Hwf Hr) as H.
  rewrite position_nil in H. simpl in H.
  destruct (EraseAfter this (sentinel this) w) as [p w'| | |]; try done.
  destruct H as (d & vd & post & -> & _ & H). by exists (d, vd), post.
Qed.

(** ** Changes of the list objects that leave the heap alone *)

Lemma represents_same_heap w w' l l' L cells :
  heap w' = heap w → lists w !! l = Some L → lists w' !! l' = Some L →
  represents w l cells → represents w' l' cells.
Proof.
  intros Hh HL HL' (L0 & HL0 & Hc & Hs). rewrite HL in HL0. injection HL0 as <-.
  exists L. by rewrite Hh.
Qed.

Lemma represents_empty_object w l cells :
  lists w !! l = Some (mkList nullptr 0%Z) → represents w l cells → cells = [].
Proof.
  intros HL (L & HL' & Hc & _). rewrite HL in HL'. injection HL' as <-.
  simpl in Hc. by destruct cells as [|[a v] rest]; [|destruct Hc].
Qed.

Lemma wf_rename w w' (σ : N → N) :
  wf w → heap w' = heap w →
  (∀ l L, lists w' !! l = Some L →
     L = mkList nullptr 0%Z ∨ lists w !! σ l = Some L) →
  (∀ l1 l2, σ l1 = σ l2 → l1 = l2) →
  (∀ l L, lists w !! l = Some L →
     L = mkList nullptr 0%Z ∨ ∃ l', lists w' !! l' = Some L) →
  wf w'.
Proof.
  intros Hwf Hh Hback Hinj Hforth.
  assert (Hown : ∀ l a, owned_by w' l a → owned_by w (σ l) a).
  { intros l a (c & Hr & Hin). pose proof Hr as (L & HL & _).
    destruct (Hback l L HL) as [->|HL0].
    - rewrite (represents_empty_object _ _ _ HL Hr) in Hin.
      by apply elem_of_nil in Hin.
    - exists c. split; [|done]. by eapply (represents_same_heap w' w l (σ l) L). }
  split.
  - intros l [L HL]. destruct (Hback l L HL) as [->|HL0].
    + exists []. by exists (mkList nullptr 0%Z).
    + destruct (wf_lists _ Hwf (σ l)) as [c Hr]; [by eexists|].
      exists c. by eapply (represents_same_heap w w' (σ l) l L).
  - intros l1 l2 a H1 H2. apply Hinj.
    eapply (wf_disjoint _ Hwf); by apply Hown.
  - intros a Hlive. rewrite Hh in Hlive.
    destruct (wf_no_leak _ Hwf a Hlive) as (l & c & Hr & Hin).
    pose proof Hr as (L & HL & _).
    destruct (Hforth l L HL) as [->|[l' HL']].
    + rewrite (represents_empty_object _ _ _ HL Hr) in Hin.
      by apply elem_of_nil in Hin.
    + exists l', c. split; [|done].
      by eapply (represents_same_heap w w' l l' L).
  - rewrite Hh. apply (wf_space _ Hwf).
Qed.

Lemma swap_run w this other L1 L2 :
  lists w !! this = Some L1 → lists w !! other = Some L2 →
  swap this other w =
  Ok tt (mkWorld (<[other := L1]> (<[this := L2]> (lists w))) (heap w)).
Proof.
  intros H1 H2. unfold swap. run.
  destruct (decide (this = other)) as [->|Hne].
  - rewrite H1 in H2. injection H2 as <-. run. do 2 f_equal.
    rewrite !insert_insert_eq. by destruct L1.
  - run. do 2 f_equal. apply map_eq. intros l.
    destruct (decide (l = other)) as [->|Hlo].
    + rewrite !lookup_insert_eq. by destruct L1.
    + rewrite !(lookup_insert_ne _ other l) by done.
      destruct (decide (l = this)) as [->|Hlt].
      * rewrite !lookup_insert_eq. by destruct L2.
      * by rewrite !lookup_insert_ne by done.
Qed.

Lemma transpose_inj a b l1 l2 : transpose a b l1 = transpose a b l2 → l1 = l2.
Proof. unfold transpose. repeat case_decide; congruence. Qed.

Lemma swap_lookup (m : gmap N SingleLinkedList) this other L1 L2 l :
  m !! this = Some L1 → m !! other = Some L2 →
  <[other := L1]> (<[this := L2]> m) !! l = m !! transpose this other l.
Proof.
  intros H1 H2. unfold transpose.
  destruct (decide (l = this)) as [Heq1|Hlt];
    destruct (decide (l = other)) as [Heq2|Hlo]; subst.
  - by rewrite lookup_insert_eq.
  - by rewrite lookup_insert_ne, lookup_insert_eq.
  - by rewrite lookup_insert_eq.
  - by rewrite !lookup_insert_ne.
Qed.

Lemma swap_spec w this other c1 c2 :
  wf w → represents w this c1 → represents w other c2 →
  ∃ w', swap this other w = Ok tt w' ∧ wf w' ∧ heap w' = heap w ∧
        (∀ l c, represents w' l c ↔ represents w (transpose this other l) c).
Proof.
  intros Hwf Hr1 Hr2. pose proof Hr1 as (L1 & HL1 & _).
  pose proof Hr2 as (L2 & HL2 & _).
  eexists. split; [by apply swap_run|]. simpl.
  assert (Hrep : ∀ l c,
     represents (mkWorld (<[other := L1]> (<[this := L2]> (lists w))) (heap w)) l c
     ↔ represents w (transpose this other l) c).
  { intros l c. unfold represents. simpl.
    by rewrite (swap_lookup _ _ _ _ _ l HL1 HL2). }
  split; [|done].
  apply (wf_rename w _ (transpose this other)); try done.
  - intros l L. simpl. rewrite (swap_lookup _ _ _ _ _ l HL1 HL2). by right.
  - apply transpose_inj.
  - intros l L HL. right. exists (transpose this other l). simpl.
    rewrite (swap_lookup _ _ _ _ _ _ HL1 HL2).
    unfold transpose. repeat case_decide; congruence.
Qed.

Lemma new_object_spec w :
  wf w →
  ∃ l w', new_object w = Ok l w' ∧ lists w !! l = None ∧
          lists w' = <[l := mkList nullptr 0%Z]> (lists w) ∧
          heap w' = heap w ∧ wf w' ∧ represents w' l [] ∧
          (∀ l2 c, l2 ≠ l → represents w' l2 c ↔ represents w l2 c).
Proof.
  intros Hwf. unfold new_object. set (l := fresh (dom (lists w))).
  assert (lists w !! l = None) as Hl by apply not_elem_of_dom, is_fresh.
  eexists l, _. split; [done|]. simpl. split_and!; try done.
  - apply (wf_rename w _ id); try done; simpl.
    + intros l2 L. destruct (decide (l2 = l)) as [->|Hne].
      * rewrite lookup_insert_eq. intros [= <-]. by left.
      * rewrite lookup_insert_ne by done. by right.
    + intros l2 L HL. right. exists l2.
      rewrite lookup_insert_ne; [done|]. congruence.
  - eexists. simpl. by rewrite lookup_insert_eq.
  - intros l2 c Hne. unfold represents. simpl. by rewrite lookup_insert_ne.
Qed.

Lemma release_object_spec w this :
  wf w → represents w this [] →
  ∃ w', release_object this w = Ok tt w' ∧
        lists w' = delete this (lists w) ∧ heap w' = heap w ∧ wf w' ∧
        (∀ l2 c, l2 ≠ this → represents w' l2 c ↔ represents w l2 c).
Proof.
  intros Hwf Hr. pose proof Hr as (L & HL & _).
  unfold release_object. rewrite HL. eexists. split; [done|]. simpl.
  split_and!; try done.
  - apply (wf_rename w _ id); try done; simpl.
    + intros l2 L2 H2. right. apply lookup_delete_Some in H2. by destruct H2.
    + intros l2 L2 H2. destruct (decide (l2 = this)) as [->|Hne].
      * left. rewrite (represents_object _ _ _ _ Hr H2). done.
      * right. exists l2. by rewrite lookup_delete_ne.
  - intros l2 c Hne. unfold represents. simpl. by rewrite lookup_delete_ne.
Qed.

Lemma lookup_delete_all l h a :
  delete_all l h !! a = if decide (a ∈ l) then None else h !! a.
Proof.
  unfold delete_all. revert h. induction l as [|b l IH]; intros h; cbn [foldl].
  - rewrite decide_False; [done|]. apply not_elem_of_nil.
  - rewrite IH. destruct (decide (a = b)) as [->|Hne].
    + rewrite lookup_delete_eq. rewrite (decide_True (P := b ∈ b :: l)) by left.
      by case_decide.
    + rewrite lookup_delete_ne by done.
      destruct (decide (a ∈ l)) as [Hin|Hin].
      * rewrite decide_True; [done | by right].
      * rewrite decide_False; [done|]. rewrite elem_of_cons. tauto.
Qed.

Lemma size_delete_all l h : size (delete_all l h) ≤ size h.
Proof.
  unfold delete_all. revert h. induction l as [|b l IH]; intros h; simpl; [done|].
  etrans; [apply IH|]. rewrite map_size_delete. destruct (h !! b); simpl; lia.
Qed.

Lemma Clear_loop_run this cells : ∀ fuel w L,
  lists w !! this = Some L → chain (heap w) (head_next_node L) cells →
  length cells < fuel →
  Clear_loop fuel this w =
  Ok tt (mkWorld (<[this := mkList nullptr (size_ L)]> (lists w))
                 (delete_all cells.*1 (heap w))).
Proof.
  induction cells as [|[a v] rest IH]; intros fuel w L HL Hc Hlt;
    (destruct fuel as [|fuel]; [simpl in Hlt; lia|]).
  - simpl in *. run. rewrite Hc. run. destruct w as [ls h]. simpl in *.
    do 2 f_equal. rewrite insert_id; [done|]. rewrite HL. f_equal.
    destruct L. unfold chain in Hc. simpl in *. by subst.
  - pose proof (chain_NoDup _ _ _ Hc) as Hnd. simpl in Hnd.
    apply NoDup_cons in Hnd as [Ha _].
    destruct Hc as [Hhead (nx & Hlook & Hrest)]. simpl in *.
    run.
    rewrite (IH fuel _ (mkList nx (size_ L))); simpl.
    + by rewrite insert_insert_eq.
    + by rewrite lookup_insert_eq.
    + eapply lseg_frame; [|exact Hrest]. intros b Hb.
      rewrite lookup_delete_ne; [done|]. by intros ->.
    + lia.
Qed.

Lemma Clear_spec w this cells :
  wf w → represents w this cells →
  ∃ w', Clear this w = Ok tt w' ∧ wf w' ∧ list_update this cells [] w w'.
Proof.
  intros Hwf Hr. pose proof Hr as (L & HL & Hc & Hs).
  unfold Clear, bind.
  rewrite (Clear_loop_run this cells _ w L HL Hc)
    by (apply chain_length_le in Hc; lia).
  run. eexists. split; [done|].
  assert (list_update this cells [] w
    (mkWorld (<[this := mkList nullptr 0%Z]>
                (<[this := mkList nullptr (size_ L)]> (lists w)))
             (delete_all cells.*1 (heap w)))) as Hu.
  { split; simpl.
    - by rewrite insert_insert_eq.
    - done.
    - intros a Hin. by apply elem_of_nil in Hin.
    - intros a Hnot _. by rewrite lookup_delete_all, decide_False.
    - intros a Hin _. by rewrite lookup_delete_all, decide_True. }
  split; [|done]. eapply list_update_wf; [exact Hwf | exact Hr | exact Hu |].
  simpl. pose proof (size_delete_all cells.*1 (heap w)).
  pose proof (wf_space _ Hwf). lia.
Qed.

Lemma destroy_spec w this cells :
  wf w → represents w this cells →
  ∃ w', destroy this w = Ok tt w' ∧ wf w' ∧
        lists w' = delete this (lists w) ∧
        (∀ a, heap w' !! a = if decide (a ∈ cells.*1) then None else heap w !! a) ∧
        (∀ l2 c, l2 ≠ this → represents w' l2 c ↔ represents w l2 c).
Proof.
  intros Hwf Hr. unfold destroy, bind.
  destruct (Clear_spec w this cells Hwf Hr) as (w1 & -> & Hwf1 & Hu).
  pose proof (list_update_represents _ _ _ _ _ Hu) as Hr1.
  destruct (release_object_spec w1 this Hwf1 Hr1)
    as (w2 & -> & Hl2 & Hh2 & Hwf2 & Hoth).
  exists w2. split; [done|]. split; [done|]. split_and!.
  - rewrite Hl2, (lu_lists _ _ _ _ _ Hu). by rewrite delete_insert_eq.
  - intros a. rewrite Hh2. case_decide as Hin.
    + apply (lu_freed _ _ _ _ _ Hu); [done | apply not_elem_of_nil].
    + apply (lu_frame _ _ _ _ _ Hu); [done|]. apply not_elem_of_nil.
  - intros l2 c Hne. rewrite (Hoth l2 c Hne). split.
    + by apply (list_update_other_inv _ _ _ _ _ _ _ Hwf Hr Hu).
    + by apply (list_update_other _ _ _ _ _ _ _ Hwf Hr Hu).
Qed.

(** ** [CreateSingleLinkedList] *)

Lemma append_spec w lc built v :
  wf w → represents w lc built →
  match InsertAfter lc (position lc built) v w with
  | Ok p w' =>
      ∃ a, p = position lc (built ++ [(a, v)]) ∧ copy_throws v = false ∧
           wf w' ∧ list_update lc built (built ++ [(a, v)]) w w'
  | Throw w' => w' = w
  | _ => False
  end.
Proof.
  intros Hwf Hr. rewrite <- (app_nil_r built) in Hr.
  pose proof (InsertAfter_spec w lc built [] v Hwf Hr) as H.
  destruct (InsertAfter lc (position lc built) v w) as [p w'| | |]; try done.
  destruct H as (a & -> & Hcp & Hwf' & Hu). exists a.
  rewrite position_snoc. rewrite app_nil_r in Hu. done.
Qed.

Lemma loop_post_step lc built a x xs w w1 o :
  copy_throws x = false →
  list_update lc built (built ++ [(a, x)]) w w1 →
  loop_post lc (built ++ [(a, x)]) xs w1 o →
  loop_post lc built (x :: xs) w o.
Proof.
  intros Hcp Hu. destruct o as [[] w'|w'| |]; simpl; try done.
  - intros (new & Hnew & Hall & Hwf & Hu'). exists ((a, x) :: new).
    split; [by rewrite <- Hnew|]. split; [by constructor|]. split; [done|].
    rewrite <- app_assoc in Hu'. by eapply list_update_trans.
  - intros (new & Hwf & Hu'). exists ((a, x) :: new). split; [done|].
    rewrite <- app_assoc in Hu'. by eapply list_update_trans.
Qed.

Lemma Create_loop_values lc : ∀ xs done fuel w built,
  wf w → represents w lc built → length xs < fuel →
  loop_post lc built xs w
    (Create_loop fuel (done ++ xs) lc (mkArrayPtr (done ++ xs) (length done))
       (position lc built) w).
Proof.
  induction xs as [|x xs IH]; intros done fuel w built Hwf Hr Hlt;
    (destruct fuel as [|fuel]; [simpl in Hlt; lia|]).
  - cbn [Create_loop]. run. rewrite app_nil_r, Nat.eqb_refl. simpl.
    exists []. rewrite app_nil_r. split; [done|]. split; [done|]. split; [done|].
    by apply list_update_refl.
  - cbn [Create_loop]. run. rewrite length_app. simpl.
    destruct (Nat.eqb_spec (length done) (length done + S (length xs))); [lia|].
    simpl. rewrite list_lookup_middle by done.
    pose proof (append_spec w lc built x Hwf Hr) as Hstep.
    destruct (InsertAfter lc (position lc built) x w) as [p w1|w1| |];
      try done.
    + destruct Hstep as (a & -> & Hcp & Hwf1 & Hu).
      destruct (Nat.ltb_spec (length done) (length done + S (length xs))); [|lia].
      simpl. eapply loop_post_step; [done | done |].
      specialize (IH (done ++ [x]) fuel w1 (built ++ [(a, x)])).
      rewrite <- app_assoc, length_app in IH. simpl in IH.
      rewrite Nat.add_1_r in IH. apply IH; [done | | simpl in Hlt; lia].
      by eapply list_update_represents.
    + subst w1. exists []. rewrite app_nil_r. split; [done|].
      by apply list_update_refl.
Qed.

Lemma Create_loop_list lc src : ∀ rest done fuel w built,
  wf w → src ≠ lc → represents w lc built → represents w src (done ++ rest) →
  length rest < fuel →
  loop_post lc built rest.*2 w
    (Create_loop fuel src lc (head_ptr rest) (position lc built) w).
Proof.
  induction rest as [|[a x] rest IH]; intros done fuel w built Hwf Hne Hr Hsrc Hlt;
    (destruct fuel as [|fuel]; [simpl in Hlt; lia|]).
  - cbn [Create_loop]. run.
    exists []. rewrite app_nil_r. split; [done|]. split; [done|]. split; [done|].
    by apply list_update_refl.
  - cbn [Create_loop]. run.
    pose proof Hsrc as (Ls & HLs & Hcs & _).
    apply chain_split in Hcs as (_ & nx & Ha & _).
    unfold iterator_deref, iterator_incr. run.
    pose proof (append_spec w lc built x Hwf Hr) as Hstep.
    destruct (InsertAfter lc (position lc built) x w) as [p w1|w1| |];
      try done.
    + destruct Hstep as (b & -> & Hcp & Hwf1 & Hu).
      pose proof (list_update_other _ _ _ _ _ _ _ Hwf Hr Hu Hne Hsrc) as Hsrc1.
      pose proof Hsrc1 as (Ls1 & HLs1 & Hcs1 & _).
      apply chain_split in Hcs1 as (_ & nx1 & Ha1 & Hrest1). run.
      rewrite (lseg_head _ _ _ Hrest1).
      eapply loop_post_step; [done | done |].
      apply (IH (done ++ [(a, x)])); try done.
      * by eapply list_update_represents.
      * by rewrite <- app_assoc.
      * simpl in Hlt. lia.
    + subst w1. exists []. rewrite app_nil_r. split; [done|].
      by apply list_update_refl.
Qed.

Lemma CreateSingleLinkedList_finish {C It} `{!Container C It}
    (container : C) w this c0 xs :
  wf w → represents w this c0 →
  (∀ lc w1, lists w !! lc = None →
     lists w1 = <[lc := mkList nullptr 0%Z]> (lists w) → heap w1 = heap w →
     wf w1 → represents w1 lc [] →
     ∃ it, container_begin container w1 = Ok it w1 ∧
       loop_post lc [] xs w1
         (Create_loop (S (iteration_bound container w1)) container lc it
            (sentinel lc) w1)) →
  match CreateSingleLinkedList this container w with
  | Ok _ w' =>
      ∃ new, new.*2 = xs ∧ Forall (λ x, copy_throws x = false) xs ∧
             wf w' ∧ list_update this c0 new w w'
  | Throw w' => w' = w
  | _ => False
  end.
Proof.
  intros Hwf Hthis Hloop.
  destruct (new_object_spec w Hwf)
    as (lc & w1 & Hnew & Hfresh & Hl1 & Hh1 & Hwf1 & Hlc1 & Hoth1).
  assert (this ≠ lc) as Hne.
  { intros ->. destruct Hthis as (L & HL & _). congruence. }
  destruct (Hloop lc w1 Hfresh Hl1 Hh1 Hwf1 Hlc1) as (it & Hbegin & Hpost).
  unfold CreateSingleLinkedList, with_local, construct_default, bind at 1.
  rewrite Hnew. unfold finally, bind at 1. rewrite Hbegin. unfold bind at 1.
  unfold before_begin.
  destruct (Create_loop _ container lc it (sentinel lc) w1) as [[] w2|w2| |];
    simpl in Hpost; try done.
  - destruct Hpost as (new & Hxs & Hall & Hwf2 & Hu).
    pose proof (list_update_represents _ _ _ _ _ Hu) as Hlc2.
    assert (represents w2 this c0) as Hthis2.
    { apply (list_update_other _ _ _ _ _ _ _ Hwf1 Hlc1 Hu Hne).
      by apply Hoth1. }
    destruct (swap_spec w2 this lc c0 new Hwf2 Hthis2 Hlc2)
      as (w3 & Hswap & Hwf3 & Hh3 & Hrep3).
    rewrite Hswap.
    assert (represents w3 lc c0) as Hlc3.
    { apply Hrep3. unfold transpose. rewrite decide_False by done.
      by rewrite decide_True. }
    assert (represents w3 this new) as Hthis3.
    { apply Hrep3. unfold transpose. by rewrite decide_True. }
    destruct (destroy_spec w3 lc c0 Hwf3 Hlc3)
      as (w4 & Hdestroy & Hwf4 & Hl4 & Hh4 & Hoth4).
    rewrite Hdestroy. exists new. split; [done|]. split; [done|]. split; [done|].
    assert (represents w4 this new) as Hthis4 by by apply Hoth4.
    pose proof Hthis as (L0 & HL0 & Hc0 & _).
    split.
    + pose proof Hthis3 as (L3 & HL3 & _).
      rewrite (represents_object _ _ _ _ Hthis3 HL3) in HL3.
      rewrite Hl4. apply map_eq. intros l.
      destruct (decide (l = lc)) as [->|Hl].
      * by rewrite lookup_delete_eq, lookup_insert_ne.
      * rewrite lookup_delete_ne by done.
        destruct (decide (l = this)) as [->|Hl'].
        { by rewrite lookup_insert_eq. }
        rewrite lookup_insert_ne by done.
        pose proof Hthis2 as (L2 & HL2 & _). pose proof Hlc2 as (L2' & HL2' & _).
        rewrite (swap_run w2 this lc _ _ HL2 HL2') in Hswap.
        injection Hswap as <-. simpl.
        rewrite !lookup_insert_ne by done.
        rewrite (lu_lists _ _ _ _ _ Hu), Hl1. by rewrite !lookup_insert_ne.
    + destruct Hthis4 as (L4 & HL4 & Hc4 & _).
      by rewrite (lseg_head _ _ _ Hc4) in Hc4.
    + intros a Hin Hnot. rewrite <- Hh1.
      apply (lu_fresh _ _ _ _ _ Hu); [done | apply not_elem_of_nil].
    + intros a Hnot Hnot'. rewrite Hh4, decide_False, Hh3 by done.
      rewrite <- Hh1. apply (lu_frame _ _ _ _ _ Hu); [apply not_elem_of_nil|done].
    + intros a Hin _. by rewrite Hh4, decide_True.
  - destruct Hpost as (new & Hwf2 & Hu).
    pose proof (list_update_represents _ _ _ _ _ Hu) as Hlc2.
    destruct (destroy_spec w2 lc new Hwf2 Hlc2)
      as (w3 & Hdestroy & Hwf3 & Hl3 & Hh3 & Hoth3).
    rewrite Hdestroy. destruct w as [ls h], w3 as [ls3 h3]. simpl in *.
    f_equal.
    + rewrite Hl3, (lu_lists _ _ _ _ _ Hu), Hl1.
      rewrite delete_insert_eq, delete_insert_eq. by apply delete_id.
    + apply map_eq. intros a. rewrite Hh3. case_decide as Hin.
      * symmetry. rewrite <- Hh1.
        apply (lu_fresh _ _ _ _ _ Hu); [done | apply not_elem_of_nil].
      * rewrite <- Hh1. apply (lu_frame _ _ _ _ _ Hu); [apply not_elem_of_nil|done].
Qed.

Lemma CreateSingleLinkedList_values_spec w this c0 (values : list T) :
  wf w → represents w this c0 →
  match CreateSingleLinkedList this values w with
  | Ok _ w' =>
      ∃ new, new.*2 = values ∧ Forall (λ x, copy_throws x = false) values ∧
             wf w' ∧ list_update this c0 new w w'
  | Throw w' => w' = w
  | _ => False
  end.
Proof.
  intros Hwf Hthis. apply CreateSingleLinkedList_finish; [done | done |].
  intros lc w1 _ _ _ Hwf1 Hlc1. exists (mkArrayPtr values 0). split; [done|].
  apply (Create_loop_values lc values [] _ w1 []); [done | done |].
  simpl. lia.
Qed.

Lemma CreateSingleLinkedList_list_spec w this c0 (other : N) cs :
  wf w → represents w this c0 → represents w other cs →
  match CreateSingleLinkedList this other w with
  | Ok _ w' =>
      ∃ new, new.*2 = cs.*2 ∧ Forall (λ x, copy_throws x = false) cs.*2 ∧
             wf w' ∧ list_update this c0 new w w'
  | Throw w' => w' = w
  | _ => False
  end.
Proof.
  intros Hwf Hthis Hother. apply CreateSingleLinkedList_finish; [done | done |].
  intros lc w1 Hfresh Hl1 Hh1 Hwf1 Hlc1.
  assert (other ≠ lc) as Hne.
  { intros ->. destruct Hother as (L & HL & _). congruence. }
  assert (represents w1 other cs) as Hother1.
  { destruct Hother as (L & HL & Hc & Hs). exists L.
    by rewrite Hl1, lookup_insert_ne, Hh1. }
  exists (head_ptr cs). split.
  - destruct Hother1 as (L & HL & Hc & _). simpl. unfold cbegin, load_next.
    by rewrite HL, (lseg_head _ _ _ Hc).
  - apply (Create_loop_list lc other cs [] _ w1 []); try done.
    destruct Hother1 as (L & HL & Hc & _). apply chain_length_le in Hc.
    simpl. lia.
Qed.

Lemma construct_with_spec body w xs :
  wf w →
  (∀ this w1, wf w1 → represents w1 this [] → lists w !! this = None →
     (∀ l c, l ≠ this → represents w1 l c ↔ represents w l c) →
     match body this w1 with
     | Ok _ w' =>
         ∃ new, new.*2 = xs ∧ Forall (λ x, copy_throws x = false) xs ∧
                wf w' ∧ list_update this [] new w1 w'
     | Throw w' => w' = w1
     | _ => False
     end) →
  match construct_with body w with
  | Ok this w' =>
      ∃ new, new.*2 = xs ∧ Forall (λ x, copy_throws x = false) xs ∧
             wf w' ∧ created this new w w'
  | Throw w' => w' = w
  | _ => False
  end.
Proof.
  intros Hwf Hbody.
  destruct (new_object_spec w Hwf)
    as (this & w1 & Hnew & Hfresh & Hl1 & Hh1 & Hwf1 & Hthis1 & Hoth1).
  specialize (Hbody this w1 Hwf1 Hthis1 Hfresh Hoth1).
  unfold construct_with, bind at 1. rewrite Hnew.
  assert (lists w1 !! this = Some (mkList nullptr 0%Z)) as HL1.
  { by rewrite Hl1, lookup_insert_eq. }
  unfold on_throw. run.
  destruct (body this w1) as [[] w2|w2| |]; try done.
  - destruct Hbody as (new & Hxs & Hall & Hwf2 & Hu). simpl.
    exists new. split; [done|]. split; [done|]. split; [done|]. split.
    + done.
    + by rewrite (lu_lists _ _ _ _ _ Hu), Hl1, insert_insert_eq.
    + by eapply list_update_represents.
    + intros a Hin. rewrite <- Hh1.
      apply (lu_fresh _ _ _ _ _ Hu); [done | apply not_elem_of_nil].
    + intros a Hnot. rewrite <- Hh1.
      apply (lu_frame _ _ _ _ _ Hu); [apply not_elem_of_nil | done].
    + intros l c Hne. rewrite <- (Hoth1 l c Hne). split.
      * by apply (list_update_other_inv _ _ _ _ _ _ _ Hwf1 Hthis1 Hu).
      * by apply (list_update_other _ _ _ _ _ _ _ Hwf1 Hthis1 Hu).
  - subst w2. unfold release_object. rewrite HL1.
    destruct w as [ls h]. simpl in *. f_equal; [|done].
    rewrite Hl1, delete_insert_eq. by apply delete_id.
Qed.

Lemma construct_from_values_spec w (values : list T) :
  wf w →
  match construct_from_values values w with
  | Ok this w' =>
      ∃ new, new.*2 = values ∧ Forall (λ x, copy_throws x = false) values ∧
             wf w' ∧ created this new w w'
  | Throw w' => w' = w
  | _ => False
  end.
Proof.
  intros Hwf. apply construct_with_spec; [done|].
  intros this w1 Hwf1 Hthis1 _ _.
  by apply CreateSingleLinkedList_values_spec.
Qed.

Lemma construct_copy_spec w other cs :
  wf w → represents w other cs →
  match construct_copy other w with
  | Ok this w' =>
      ∃ new, new.*2 = cs.*2 ∧ Forall (λ x, copy_throws x = false) cs.*2 ∧
             wf w' ∧ created this new w w'
  | Throw w' => w' = w
  | _ => False
  end.
Proof.
  intros Hwf Hother. apply construct_with_spec; [done|].
  intros this w1 Hwf1 Hthis1 Hfresh Hoth1.
  apply CreateSingleLinkedList_list_spec; [done | done |].
  apply Hoth1; [|done]. intros ->. destruct Hother as (L & HL & _). congruence.
Qed.

Lemma assign_self w this : assign this this w = Ok tt w.
Proof. unfold assign. by rewrite bool_decide_eq_true_2. Qed.

Lemma assign_spec w this rhs c_this c_rhs :
  wf w → represents w this c_this → represents w rhs c_rhs → this ≠ rhs →
  match assign this rhs w with
  | Ok _ w' =>
      ∃ new, new.*2 = c_rhs.*2 ∧ (∀ a, a ∈ new.*1 → heap w !! a = None) ∧
             wf w' ∧ list_update this c_this new w w'
  | Throw w' => w' = w
  | _ => False
  end.
Proof.
  intros Hwf Hthis Hrhs Hne. unfold assign.
  rewrite bool_decide_eq_false_2 by done. simpl.
  unfold with_local, bind at 1.
  pose proof (construct_copy_spec w rhs c_rhs Hwf Hrhs) as Hcopy.
  destruct (construct_copy rhs w) as [lc w1|w1| |]; try done.
  destruct Hcopy as (new & Hxs & _ & Hwf1 & Hcr).
  pose proof Hcr as [Hfresh Hl1 Hlc1 Hnew Hframe Hoth1].
  assert (this ≠ lc) as Hne1.
  { intros ->. destruct Hthis as (L & HL & _). congruence. }
  assert (represents w1 this c_this) as Hthis1 by by apply Hoth1.
  destruct (swap_spec w1 this lc c_this new Hwf1 Hthis1 Hlc1)
    as (w2 & Hswap & Hwf2 & Hh2 & Hrep2).
  unfold finally. rewrite Hswap.
  assert (represents w2 lc c_this) as Hlc2.
  { apply Hrep2. unfold transpose. rewrite decide_False by done.
    by rewrite decide_True. }
  assert (represents w2 this new) as Hthis2.
  { apply Hrep2. unfold transpose. by rewrite decide_True. }
  destruct (destroy_spec w2 lc c_this Hwf2 Hlc2)
    as (w3 & Hdestroy & Hwf3 & Hl3 & Hh3 & Hoth3).
  rewrite Hdestroy. exists new. split; [done|]. split; [done|]. split; [done|].
  assert (represents w3 this new) as Hthis3 by by apply Hoth3.
  split.
  - pose proof Hthis1 as (L1 & HL1 & _). pose proof Hlc1 as (L1' & HL1' & _).
    rewrite (swap_run w1 this lc _ _ HL1 HL1') in Hswap.
    injection Hswap as <-. simpl in Hl3.
    rewrite (represents_object _ _ _ _ Hlc1 HL1') in Hl3.
    rewrite Hl3, Hl1. apply map_eq. intros l.
    destruct (decide (l = lc)) as [->|Hl].
    { by rewrite lookup_delete_eq, lookup_insert_ne. }
    rewrite lookup_delete_ne, (lookup_insert_ne _ lc l) by done.
    destruct (decide (l = this)) as [->|Hl'].
    { by rewrite !lookup_insert_eq. }
    by rewrite !lookup_insert_ne.
  - destruct Hthis3 as (L3 & HL3 & Hc3 & _).
    by rewrite (lseg_head _ _ _ Hc3) in Hc3.
  - intros a Hin _. by apply Hnew.
  - intros a Hnot Hnot'. rewrite Hh3, decide_False, Hh2 by done. by apply Hframe.
  - intros a Hin _. by rewrite Hh3, decide_True.
Qed.

(** ** The relational operators on element sequences *)

Lemma std_equal_spec w : ∀ c1 c2 fuel p1 p2,
  chain (heap w) p1 c1 → chain (heap w) p2 c2 →
  length c1 = length c2 → length c1 < fuel →
  std_equal fuel p1 nullptr p2 w = Ok (equal_elements c1.*2 c2.*2) w.
Proof.
  induction c1 as [|[a x] c1 IH]; intros c2 fuel p1 p2 H1 H2 Hlen Hlt;
    (destruct fuel as [|fuel]; [simpl in Hlt; lia|]).
  - unfold chain in H1. simpl in H1. subst p1. done.
  - destruct c2 as [|[b y] c2]; [done|].
    destruct H1 as [-> (n1 & Ha & H1)]. destruct H2 as [-> (n2 & Hb & H2)].
    simpl in *. unfold iterator_deref, iterator_incr. run.
    destruct (eqT x y); [|done]. run. apply IH; try done; lia.
Qed.

Lemma std_lexicographical_compare_spec w : ∀ c1 c2 fuel p1 p2,
  chain (heap w) p1 c1 → chain (heap w) p2 c2 → length c1 < fuel →
  std_lexicographical_compare fuel p1 nullptr p2 nullptr w
  = Ok (lexicographical_compare c1.*2 c2.*2) w.
Proof.
  induction c1 as [|[a x] c1 IH]; intros c2 fuel p1 p2 H1 H2 Hlt;
    (destruct fuel as [|fuel]; [simpl in Hlt; lia|]).
  - unfold chain in H1. simpl in H1. subst p1.
    destruct c2 as [|[b y] c2].
    + unfold chain in H2. simpl in H2. by subst p2.
    + by destruct H2 as [-> _].
  - destruct H1 as [-> (n1 & Ha & H1)].
    destruct c2 as [|[b y] c2].
    { unfold chain in H2. simpl in H2. by subst p2. }
    destruct H2 as [-> (n2 & Hb & H2)].
    simpl in *. unfold iterator_deref, iterator_incr. run.
    destruct (ltT x y); [done|]. destruct (ltT y x); [done|]. run.
    apply IH; try done; lia.
Qed.

Lemma operator_eq_spec w l1 l2 c1 c2 :
  represents w l1 c1 → represents w l2 c2 →
  operator_eq l1 l2 w =
  Ok ((length c1 =? length c2)%nat && equal_elements c1.*2 c2.*2) w.
Proof.
  intros (L1 & HL1 & Hc1 & Hs1) (L2 & HL2 & Hc2 & Hs2).
  unfold operator_eq, GetSize, cbegin, cend, bind, read_size, load_next.
  rewrite HL1, HL2. cbv beta iota. rewrite Hs1, Hs2.
  destruct (Nat.eqb_spec (length c1) (length c2)) as [Heq|Hne].
  - rewrite Heq, Z.eqb_refl, HL1, HL2. cbv beta iota.
    apply std_equal_spec; try done. apply chain_length_le in Hc1. lia.
  - destruct (Z.eqb_spec (Z.of_nat (length c1)) (Z.of_nat (length c2))); [lia|].
    done.
Qed.

Lemma operator_lt_spec w l1 l2 c1 c2 :
  represents w l1 c1 → represents w l2 c2 →
  operator_lt l1 l2 w = Ok (lexicographical_compare c1.*2 c2.*2) w.
Proof.
  intros (L1 & HL1 & Hc1 & Hs1) (L2 & HL2 & Hc2 & Hs2).
  unfold operator_lt, cbegin, cend, bind, load_next.
  rewrite HL1, HL2. cbv beta iota.
  apply std_lexicographical_compare_spec; try done.
  apply chain_length_le in Hc1. lia.
Qed.

(** ** Statements of the specification *)

Lemma equal_elements_pairwise xs ys :
  length xs = length ys →
  equal_elements xs ys = true ↔ pairwise_equal xs ys.
Proof.
  unfold pairwise_equal.
  revert ys. induction xs as [|x xs IH]; intros [|y ys] Hlen; try done.
  simpl in Hlen. injection Hlen as Hlen. simpl.
  rewrite andb_true_iff, (IH ys Hlen). split.
  - intros [Hxy Hrest] [|i] x' y'; simpl; [congruence | apply Hrest].
  - intros H. split; [by apply (H 0) | intros i; apply (H (S i))].
Qed.

Lemma lexicographical_compare_lex_less xs ys :
  lexicographical_compare xs ys = true ↔ lex_less xs ys.
Proof.
  revert ys. induction xs as [|x xs IH]; intros [|y ys]; simpl.
  - split; [done|]. intros (k & _ & [[_ [? Hk]]|(? & ? & Hk & _)]);
      by rewrite lookup_nil in Hk.
  - split; [|done]. intros _. exists 0. split; [lia|].
    left. split; [done | by eexists].
  - split; [done|]. intros (k & _ & [[_ [? Hk]]|(? & ? & _ & Hk & _)]);
      by rewrite lookup_nil in Hk.
  - destruct (ltT x y) eqn:Hxy.
    { split; [|done]. intros _. exists 0. split; [lia|]. right. by exists x, y. }
    split.
    + destruct (ltT y x) eqn:Hyx; [done|]. intros H. apply IH in H.
      destruct H as (k & Hpre & Hk). exists (S k). split; [|done].
      intros [|i] x' y' Hi; simpl.
      * by intros [= <-] [= <-].
      * apply Hpre. lia.
    + intros ([|k] & Hpre & Hk).
      * destruct Hk as [[Hk _]|(x' & y' & Hx & Hy & Hlt)]; [done|].
        simpl in Hx, Hy. congruence.
      * destruct (Hpre 0 x y) as [_ ->]; [lia | done | done |].
        apply IH. exists k. split; [|done].
        intros i x' y' Hi. apply (Hpre (S i)). lia.
Qed.

Lemma le_lt_or_eq_elements xs ys :
  total_order →
  negb (lexicographical_compare ys xs) =
  lexicographical_compare xs ys
  || ((length xs =? length ys)%nat && equal_elements xs ys).
Proof.
  intros [Hirr Htrans Htri]. revert ys.
  induction xs as [|x xs IH]; intros [|y ys]; simpl; try done.
  destruct (ltT y x) eqn:Hyx, (ltT x y) eqn:Hxy; simpl.
  - pose proof (Htrans _ _ _ Hxy Hyx) as H. by rewrite Hirr in H.
  - destruct (eqT x y) eqn:Heq; simpl.
    + apply Htri in Heq as [_ ?]. congruence.
    + by rewrite andb_false_r.
  - done.
  - assert (eqT x y = true) as -> by by apply Htri.
    simpl. apply IH.
Qed.

Lemma lexicographical_compare_prefix xs ext :
  ext ≠ [] → lexicographical_compare xs (xs ++ ext) = true.
Proof.
  intros Hne. induction xs as [|x xs IH]; simpl.
  - by destruct ext.
  - by destruct (ltT x x).
Qed.

Lemma load_next_position w this pre post :
  represents w this (pre ++ post) →
  load_next (position this pre) w = Ok (head_ptr post) w.
Proof.
  intros (L & HL & Hc & _).
  induction pre as [|[b vb] pre _] using rev_ind.
  - simpl in *. by rewrite HL, (lseg_head _ _ _ Hc).
  - rewrite position_snoc. rewrite <- app_assoc in Hc.
    apply chain_split in Hc as (_ & nx & Hb & Hpost). simpl.
    by rewrite Hb, (lseg_head _ _ _ Hpost).
Qed.

(** C3: [operator==] returns true exactly when the two lists have the same
    size and their elements compare equal pairwise, in order;
    [operator!=] returns the negation. *)
Theorem operator_eq_pairwise w lhs rhs c1 c2 :
  represents w lhs c1 → represents w rhs c2 →
  ∃ b : bool,
    operator_eq lhs rhs w = Ok b w ∧
    (b = true ↔
       size_of w lhs = size_of w rhs ∧ pairwise_equal c1.*2 c2.*2) ∧
    operator_ne lhs rhs w = Ok (negb b) w.
Proof.
  intros H1 H2. eexists. split; [by apply operator_eq_spec|]. split.
  - rewrite (represents_size_of _ _ _ H1), (represents_size_of _ _ _ H2).
    rewrite andb_true_iff, Nat.eqb_eq. split.
    + intros [Hlen Heq]. split; [by rewrite Hlen|].
      apply equal_elements_pairwise; [by rewrite !length_fmap | done].
    + intros [Hlen Heq]. assert (length c1 = length c2) as Hlen'.
      { injection Hlen. lia. }
      split; [done|].
      apply equal_elements_pairwise; [by rewrite !length_fmap | done].
  - unfold operator_ne, bind. by rewrite (operator_eq_spec _ _ _ _ _ H1 H2).
Qed.

(** C4: [operator<] is the lexicographic comparison of the two element
    sequences under the element type's less-than; [>], [<=] and [>=] are
    derived from it; the empty list is less than every non-empty list and
    a proper prefix is less than its extension. *)
Theorem operator_lt_lexicographic w lhs rhs c1 c2 :
  represents w lhs c1 → represents w rhs c2 →
  ∃ lt gt : bool,
    operator_lt lhs rhs w = Ok lt w ∧ (lt = true ↔ lex_less c1.*2 c2.*2) ∧
    operator_gt lhs rhs w = Ok gt w ∧ (gt = true ↔ lex_less c2.*2 c1.*2) ∧
    operator_le lhs rhs w = Ok (negb gt) w ∧
    operator_ge lhs rhs w = Ok (negb lt) w ∧
    (c1 = [] → c2 ≠ [] → lt = true) ∧
    (∀ ext, ext ≠ [] → c2.*2 = c1.*2 ++ ext → lt = true).
Proof.
  intros H1 H2.
  exists (lexicographical_compare c1.*2 c2.*2),
         (lexicographical_compare c2.*2 c1.*2).
  pose proof (operator_lt_spec _ _ _ _ _ H1 H2) as Hlt.
  pose proof (operator_lt_spec _ _ _ _ _ H2 H1) as Hgt.
  split_and!; try done.
  - apply lexicographical_compare_lex_less.
  - apply lexicographical_compare_lex_less.
  - unfold operator_le, bind. by rewrite Hgt.
  - unfold operator_ge, bind. by rewrite Hlt.
  - intros -> Hne. by destruct c2.
  - intros ext Hne ->. by apply lexicographical_compare_prefix.
Qed.

(** C10: when [operator<] of the element type is a total order,
    [lhs <= rhs], defined as [!(rhs < lhs)], holds exactly when
    [lhs < rhs] or [lhs == rhs] does. *)
Theorem operator_le_lt_or_eq w lhs rhs c1 c2 :
  total_order → represents w lhs c1 → represents w rhs c2 →
  ∃ le lt eq : bool,
    operator_le lhs rhs w = Ok le w ∧
    operator_lt lhs rhs w = Ok lt w ∧
    operator_eq lhs rhs w = Ok eq w ∧
    (le = true ↔ lt = true ∨ eq = true).
Proof.
  intros Hord H1 H2.
  exists (negb (lexicographical_compare c2.*2 c1.*2)),
         (lexicographical_compare c1.*2 c2.*2),
         ((length c1 =? length c2)%nat && equal_elements c1.*2 c2.*2).
  split_and!.
  - unfold operator_le, bind. by rewrite (operator_lt_spec _ _ _ _ _ H2 H1).
  - by apply operator_lt_spec.
  - by apply operator_eq_spec.
  - rewrite (le_lt_or_eq_elements _ _ Hord), !length_fmap.
    by rewrite orb_true_iff.
Qed.

(** C5: [InsertAfter(before_begin(), v)] and [PushFront(v)] end in the
    same store, so the list shows the same element sequence and size. *)
Theorem InsertAfter_before_begin_PushFront w this v :
  same_effect (InsertAfter this (before_begin this) v w) (PushFront this v w) ∧
  observable (InsertAfter this (before_begin this) v w) this
  = observable (PushFront this v w) this.
Proof.
  rewrite PushFront_InsertAfter. unfold bind, ret.
  by destruct (InsertAfter this (before_begin this) v w).
Qed.

(** C6: [PushFront(v)] followed by [PopFront()] leaves the list, and the
    whole store, as it was; when [PushFront] throws nothing has changed
    either. *)
Theorem PushFront_PopFront w this cells v :
  represents w this cells →
  match PushFront this v w with
  | Ok _ w1 =>
      PopFront this w1 = Ok tt w ∧
      elements_of w1 this = Some (v :: cells.*2)
  | Throw w1 => w1 = w
  | _ => False
  end.
Proof.
  intros Hr. pose proof Hr as (L & HL & Hc & Hs).
  pose proof (chain_length_le _ _ _ Hc) as Hlen.
  unfold PushFront. run.
  destruct (operator_new (heap w)) as [a|] eqn:Hnew; [|done].
  destruct (copy_throws v) eqn:Hcp; [done|].
  apply operator_new_Some in Hnew as [Hfresh Hspace]. run.
  assert (((size_ L + 1) mod size_t_modulus)%Z = (size_ L + 1)%Z) as Hmod.
  { apply Z.mod_small. lia. }
  split.
  - unfold PopFront. run. rewrite Hmod.
    destruct (Z.eqb_spec (size_ L + 1) 0) as [Hz|_]; [lia|]. run.
    replace ((size_ L + 1 - 1) mod size_t_modulus)%Z with (size_ L)
      by (rewrite Z.add_simpl_r, Z.mod_small; lia).
    destruct w as [ls h]. simpl in *. do 2 f_equal.
    + rewrite !insert_insert_eq. destruct L. by apply insert_id.
    + by rewrite delete_insert_eq, delete_id.
  - set (w1 := mkWorld _ _).
    assert (represents w1 this ((a, v) :: cells)) as Hr1.
    { eexists. subst w1. simpl. rewrite lookup_insert_eq. split; [done|].
      simpl. split.
      - split; [done|]. exists (head_next_node L). rewrite lookup_insert_eq.
        split; [done|]. eapply lseg_frame; [|exact Hc]. intros b Hb.
        rewrite lookup_insert_ne; [done|]. intros ->.
        destruct (chain_live _ _ _ _ Hc Hb). congruence.
      - rewrite Hmod, Hs. lia. }
    by rewrite (represents_elements_of _ _ _ Hr1).
Qed.

(** C7: when the successor of [pos] is a real node, [EraseAfter(pos)]
    returns normally, removes exactly that node from the sequence and
    releases it, decrements the size by one, and returns the cursor to
    the element that now follows [pos], the end cursor when there is
    none. *)
Theorem EraseAfter_removes_successor w this pre d vd post :
  wf w → represents w this (pre ++ (d, vd) :: post) →
  ∃ w',
    EraseAfter this (position this pre) w = Ok (head_ptr post) w' ∧
    nodes_of w' this = Some (pre ++ post) ∧
    elements_of w' this = Some (pre.*2 ++ post.*2) ∧
    size_of w' this = Some (Z.of_nat (length (pre ++ (d, vd) :: post)) - 1)%Z ∧
    heap w' !! d = None ∧
    iterator_incr (position this pre) w' = Ok (head_ptr post) w' ∧
    (head_ptr post = end_ this ↔ post = []) ∧
    wf w'.
Proof.
  intros Hwf Hr. pose proof (EraseAfter_spec w this pre _ Hwf Hr) as H.
  destruct (EraseAfter this (position this pre) w) as [p w'| | |]; try done.
  destruct H as (d' & vd' & post' & [= <- <- <-] & -> & Hwf' & Hu).
  pose proof (list_update_represents _ _ _ _ _ Hu) as Hr'.
  exists w'. split_and!; try done.
  - by apply represents_nodes_of.
  - by rewrite (represents_elements_of _ _ _ Hr'), fmap_app.
  - rewrite (represents_size_of _ _ _ Hr'). f_equal.
    rewrite !length_app. simpl. lia.
  - pose proof Hr as (L & _ & Hc & _). apply chain_NoDup in Hc.
    rewrite fmap_fst_app_cons in Hc. apply NoDup_app in Hc as (_ & Hpre & Hpost).
    apply NoDup_cons in Hpost as [Hpost _].
    apply (lu_freed _ _ _ _ _ Hu).
    + rewrite fmap_fst_app_cons. apply elem_of_app. right. left.
    + rewrite fmap_app. intros [Hin|Hin]%elem_of_app; [|done].
      by eapply Hpre; [|left].
  - unfold iterator_incr, bind, assert.
    assert (is_null (position this pre) = false) as ->.
    { unfold position. by destruct (last pre). }
    simpl. by apply load_next_position.
  - by destruct post.
Qed.

(** C8: the list constructed from a literal sequence has one fresh node
    per element, in the order of the input, and its size is the input
    length; when the construction throws, the store is unchanged. *)
Theorem construct_from_values_elements w (values : list T) :
  wf w →
  match construct_from_values values w with
  | Ok this w' =>
      elements_of w' this = Some values ∧
      size_of w' this = Some (Z.of_nat (length values)) ∧
      (∃ new, nodes_of w' this = Some new ∧
              (∀ a, a ∈ new.*1 → heap w !! a = None) ∧
              (∀ l cells, l ≠ this →
                 represents w l cells → represents w' l cells)) ∧
      wf w'
  | Throw w' => w' = w
  | _ => False
  end.
Proof.
  intros Hwf. pose proof (construct_from_values_spec w values Hwf) as H.
  destruct (construct_from_values values w) as [this w'|w'| |]; try done.
  destruct H as (new & Hxs & _ & Hwf' & Hcr).
  pose proof (cr_represents _ _ _ _ Hcr) as Hr.
  split_and!; try done.
  - by rewrite (represents_elements_of _ _ _ Hr), Hxs.
  - rewrite (represents_size_of _ _ _ Hr), <- Hxs. by rewrite length_fmap.
  - exists new. split; [by apply represents_nodes_of|].
    split; [apply (cr_fresh _ _ _ _ Hcr)|].
    intros l cells Hne. by apply (cr_other _ _ _ _ Hcr).
Qed.

(** C1: copy assignment between two distinct lists either succeeds, and
    then the destination shows the elements and size of the right-hand
    side on nodes of its own, the right-hand side is untouched and the
    store is well formed (no node is leaked or shared), or it throws and
    the whole store is what it was before the call; assigning a list to
    itself returns at once and changes nothing. *)
Theorem assign_strong_guarantee w this rhs c_this c_rhs :
  wf w → represents w this c_this → represents w rhs c_rhs →
  (this ≠ rhs →
   match assign this rhs w with
   | Ok _ w' =>
       elements_of w' this = Some c_rhs.*2 ∧
       size_of w' this = Some (Z.of_nat (length c_rhs)) ∧
       represents w' rhs c_rhs ∧
       dom (lists w') = dom (lists w) ∧
       (∀ a, a ∈ c_this.*1 → heap w' !! a = None) ∧
       wf w'
   | Throw w' => w' = w
   | _ => False
   end) ∧
  assign this this w = Ok tt w.
Proof.
  intros Hwf Hthis Hrhs. split; [|apply assign_self]. intros Hne.
  pose proof (assign_spec w this rhs c_this c_rhs Hwf Hthis Hrhs Hne) as H.
  destruct (assign this rhs w) as [[] w'|w'| |]; try done.
  destruct H as (new & Hxs & Hnew & Hwf' & Hu).
  pose proof (list_update_represents _ _ _ _ _ Hu) as Hr.
  assert (represents w' rhs c_rhs) as Hrhs'.
  { by apply (list_update_other _ _ _ _ _ _ _ Hwf Hthis Hu). }
  split_and!; try done.
  - by rewrite (represents_elements_of _ _ _ Hr), Hxs.
  - rewrite (represents_size_of _ _ _ Hr). do 2 f_equal.
    by rewrite <- (length_fmap snd new), Hxs, length_fmap.
  - rewrite (lu_lists _ _ _ _ _ Hu), dom_insert_L.
    destruct Hthis as (L & HL & _). apply elem_of_dom_2 in HL.
    clear -HL. set_solver.
  - intros a Hin. apply (lu_freed _ _ _ _ _ Hu); [done|]. intros Hin'.
    destruct Hthis as (L & _ & Hc & _).
    destruct (chain_live _ _ _ _ Hc Hin) as [n Hn].
    rewrite (Hnew a Hin') in Hn. done.
Qed.

Lemma iterator_incr_before_begin w l L :
  lists w !! l = Some L → iterator_incr (sentinel l) w = Ok (head_next_node L) w.
Proof. intros HL. unfold iterator_incr, bind, assert, load_next. simpl. by rewrite HL. Qed.

(** C2, amended: [swap] exchanges the element sequences and sizes; every
    cursor of either list other than its before-begin cursor refers into
    the other list afterwards; a before-begin cursor keeps designating the sentinel of
    the list it was obtained from (and not the other list), and its
    successor is now the first node of the other list's former chain. *)
Theorem swap_exchanges_chains w a b ca cb :
  represents w a ca → represents w b cb →
  ∃ w', swap_lists a b w = Ok tt w' ∧
    elements_of w' a = elements_of w b ∧
    elements_of w' b = elements_of w a ∧
    size_of w' a = size_of w b ∧
    size_of w' b = size_of w a ∧
    (∀ p, p ≠ before_begin a → refers_into w a p = true →
          refers_into w' b p = true) ∧
    (∀ p, p ≠ before_begin b → refers_into w b p = true →
          refers_into w' a p = true) ∧
    refers_into w' a (before_begin a) = true ∧
    refers_into w' b (before_begin b) = true ∧
    iterator_incr (before_begin a) w' = Ok (head_ptr cb) w' ∧
    iterator_incr (before_begin b) w' = Ok (head_ptr ca) w' ∧
    (a ≠ b → refers_into w' b (before_begin a) = false ∧
             refers_into w' a (before_begin b) = false).
Proof.
  intros Ha Hb. pose proof Ha as (La & HLa & Hca & Hsa).
  pose proof Hb as (Lb & HLb & Hcb & Hsb).
  eexists. split; [by apply swap_run|].
  set (w' := mkWorld _ _).
  assert (lists w' !! a = Some Lb) as HLa'.
  { subst w'. simpl. rewrite (swap_lookup _ _ _ _ _ a HLa HLb).
    unfold transpose. by rewrite decide_True. }
  assert (lists w' !! b = Some La) as HLb'.
  { subst w'. simpl. rewrite (swap_lookup _ _ _ _ _ b HLa HLb).
    unfold transpose. case_decide; [congruence|]. by rewrite decide_True. }
  assert (represents w' a cb) as Ha' by by exists Lb.
  assert (represents w' b ca) as Hb' by by exists La.
  pose proof (represents_nodes_of _ _ _ Ha) as Hna.
  pose proof (represents_nodes_of _ _ _ Hb) as Hnb.
  pose proof (represents_nodes_of _ _ _ Ha') as Hna'.
  pose proof (represents_nodes_of _ _ _ Hb') as Hnb'.
  unfold refers_into, before_begin. rewrite Hna, Hnb, Hna', Hnb'.
  split_and!; try done.
  - by rewrite (represents_elements_of _ _ _ Ha'),
      (represents_elements_of _ _ _ Hb).
  - by rewrite (represents_elements_of _ _ _ Hb'),
      (represents_elements_of _ _ _ Ha).
  - unfold size_of. by rewrite HLa', HLb.
  - unfold size_of. by rewrite HLb', HLa.
  - intros [|l|x] Hp; try done. rewrite !bool_decide_eq_true.
    unfold before_begin in Hp. congruence.
  - intros [|l|x] Hp; try done. rewrite !bool_decide_eq_true.
    unfold before_begin in Hp. congruence.
  - by rewrite bool_decide_eq_true_2.
  - by rewrite bool_decide_eq_true_2.
  - by rewrite (iterator_incr_before_begin _ _ _ HLa'), (lseg_head _ _ _ Hcb).
  - by rewrite (iterator_incr_before_begin _ _ _ HLb'), (lseg_head _ _ _ Hca).
  - intros Hne. by rewrite !bool_decide_eq_false_2.
Qed.

(** ** Stores reachable through the public interface *)

Lemma wf_empty_world : wf empty_world.
Proof.
  split.
  - intros l [L HL]. simpl in HL. by rewrite lookup_empty in HL.
  - intros l1 l2 a (c & (L & HL & _) & _). simpl in HL.
    by rewrite lookup_empty in HL.
  - intros a [n Hn]. simpl in Hn. by rewrite lookup_empty in Hn.
  - simpl. by rewrite map_size_empty.
Qed.

Lemma perform_wf w o :
  wf w → admissible w o →
  match perform o w with
  | Ok _ w' => wf w'
  | Throw w' => w' = w
  | Undefined => True
  | Diverge => False
  end.
Proof.
  intros Hwf Hadm. destruct o; cbn [perform admissible] in *;
    unfold discard, bind, live in *.
  - destruct (new_object_spec w Hwf) as (l & w' & Hnew & _ & _ & _ & Hwf' & _).
    unfold construct_default. by rewrite Hnew.
  - pose proof (construct_from_values_spec w values Hwf) as H.
    destruct (construct_from_values values w); try done.
    by destruct H as (_ & _ & _ & ? & _).
  - destruct (wf_lists _ Hwf other Hadm) as [cs Hother].
    pose proof (construct_copy_spec w other cs Hwf Hother) as H.
    destruct (construct_copy other w); try done.
    by destruct H as (_ & _ & _ & ? & _).
  - destruct Hadm as [Hthis Hrhs].
    destruct (decide (this = rhs)) as [->|Hne]; [by rewrite assign_self|].
    destruct (wf_lists _ Hwf this Hthis) as [c1 H1].
    destruct (wf_lists _ Hwf rhs Hrhs) as [c2 H2].
    pose proof (assign_spec w this rhs c1 c2 Hwf H1 H2 Hne) as H.
    destruct (assign this rhs w); try done.
    by destruct H as (_ & _ & _ & ? & _).
  - destruct Hadm as [Hthis Hother].
    destruct (wf_lists _ Hwf this Hthis) as [c1 H1].
    destruct (wf_lists _ Hwf other Hother) as [c2 H2].
    destruct (swap_spec w this other c1 c2 Hwf H1 H2) as (w' & Hs & Hwf' & _).
    unfold swap_lists. by rewrite Hs.
  - destruct (wf_lists _ Hwf this Hadm) as [c Hc].
    destruct (destroy_spec w this c Hwf Hc) as (w' & Hd & Hwf' & _).
    by rewrite Hd.
  - destruct (wf_lists _ Hwf this Hadm) as [c Hc].
    pose proof (PushFront_spec w this c v Hwf Hc) as H.
    destruct (PushFront this v w); try done.
    by destruct H as (_ & _ & ? & _).
  - destruct (wf_lists _ Hwf this Hadm) as [c Hc].
    pose proof (PopFront_spec w this c Hwf Hc) as H.
    destruct (PopFront this w); try done.
    by destruct H as (_ & _ & _ & ? & _).
  - destruct Hadm as (pre & post & Hr & ->).
    pose proof (InsertAfter_spec w this pre post v Hwf Hr) as H.
    destruct (InsertAfter this (position this pre) v w); try done.
    by destruct H as (_ & _ & _ & ? & _).
  - destruct Hadm as (pre & post & Hr & ->).
    pose proof (EraseAfter_spec w this pre post Hwf Hr) as H.
    destruct (EraseAfter this (position this pre) w); try done.
    by destruct H as (_ & _ & _ & _ & _ & ? & _).
  - destruct (wf_lists _ Hwf this Hadm) as [c Hc].
    destruct (Clear_spec w this c Hwf Hc) as (w' & Hcl & Hwf' & _).
    by rewrite Hcl.
Qed.

Lemma step_wf w w' : wf w → step w w' → wf w'.
Proof.
  intros Hwf [o Hadm Hrun|o Hadm Hrun];
    pose proof (perform_wf w o Hwf Hadm) as H; rewrite Hrun in H;
    [done | by subst].
Qed.

Lemma reachable_wf w : reachable w → wf w.
Proof.
  unfold reachable. intros Hreach.
  assert (∀ w0, rtc step w0 w → wf w0 → wf w) as H.
  { clear. intros w0 Hrtc. induction Hrtc as [w|w1 w2 w3 Hstep _ IH]; [done|].
    intros Hwf. apply IH. by eapply step_wf. }
  apply (H empty_world Hreach), wf_empty_world.
Qed.

(** C9, amended: in every store reached by calls of the public operations
    in which [InsertAfter] and [EraseAfter] are given a cursor of the list
    they are called on ([before_begin()] or a cursor to one of its nodes),
    [IsEmpty()] returns true exactly when [begin()] equals [end()]: the
    stored size is zero exactly when the forward link of the sentinel is
    null. *)
Theorem IsEmpty_iff_begin_is_end w l L :
  reachable w → lists w !! l = Some L →
  ∃ b p, IsEmpty l w = Ok b w ∧ begin l w = Ok p w ∧
         (b = true ↔ iterator_eq p (end_ l) = true) ∧
         (size_ L = 0%Z ↔ head_next_node L = nullptr).
Proof.
  intros Hreach HL. apply reachable_wf in Hreach.
  destruct (wf_lists _ Hreach l) as [c Hc]; [by eexists|].
  pose proof (represents_object _ _ _ _ Hc HL) as ->.
  exists (Z.of_nat (length c) =? 0)%Z, (head_ptr c).
  unfold IsEmpty, begin, bind, read_size, load_next, ret. rewrite HL. simpl.
  split; [done|]. split; [done|].
  unfold iterator_eq, end_. rewrite bool_decide_eq_true, Z.eqb_eq.
  destruct c as [|[a v] c]; simpl; split; split; intros; try done; lia.
Qed.

(** ** Further properties of the member functions *)

Lemma equal_elements_refl xs :
  (∀ x, eqT x x = true) → equal_elements xs xs = true.
Proof. intros Hrefl. induction xs as [|x xs IH]; simpl; [done|]. by rewrite Hrefl. Qed.

Lemma PushFront_run w this L v :
  lists w !! this = Some L →
  PushFront this v w =
  match operator_new (heap w) with
  | Some a =>
      if copy_throws v then Throw w
      else Ok tt (mkWorld
                    (<[this := mkList (node_at a)
                                 ((size_ L + 1) mod size_t_modulus)%Z]> (lists w))
                    (<[a := mkNode v (head_next_node L)]> (heap w)))
  | None => Throw w
  end.
Proof.
  intros HL. unfold PushFront. run.
  destruct (operator_new (heap w)) as [a|]; [|done].
  destruct (copy_throws v); [done|]. run. by rewrite insert_insert_eq.
Qed.

(** X1: the copy constructor gives the new list the elements and the size of
    the source on nodes that were not live before, leaves the source as
    it was and keeps the store well formed; when a node cannot be made the
    store is the one before the call. *)
Theorem construct_copy_elements w other cs :
  wf w → represents w other cs →
  match construct_copy other w with
  | Ok this w' =>
      this ≠ other ∧
      elements_of w' this = Some cs.*2 ∧
      size_of w' this = Some (Z.of_nat (length cs)) ∧
      represents w' other cs ∧
      (∃ new, nodes_of w' this = Some new ∧
              ∀ a, a ∈ new.*1 → (a ∉ cs.*1) ∧ heap w !! a = None) ∧
      wf w'
  | Throw w' => w' = w
  | _ => False
  end.
Proof.
  intros Hwf Hother. pose proof (construct_copy_spec w other cs Hwf Hother) as H.
  destruct (construct_copy other w) as [this w'|w'| |]; try done.
  destruct H as (new & Hxs & _ & Hwf' & Hcr).
  pose proof (cr_represents _ _ _ _ Hcr) as Hr.
  assert (this ≠ other) as Hne.
  { intros ->. destruct Hother as (L & HL & _).
    rewrite (cr_object _ _ _ _ Hcr) in HL. done. }
  split_and!; try done.
  - by rewrite (represents_elements_of _ _ _ Hr), Hxs.
  - rewrite (represents_size_of _ _ _ Hr). do 2 f_equal.
    by rewrite <- (length_fmap snd new), Hxs, length_fmap.
  - by apply (cr_other _ _ _ _ Hcr).
  - exists new. split; [by apply represents_nodes_of|].
    intros a Hin. pose proof (cr_fresh _ _ _ _ Hcr a Hin) as Hfresh.
    split; [|done]. intros Hin'. destruct Hother as (L & _ & Hc & _).
    destruct (chain_live _ _ _ _ Hc Hin') as [n Hn]. congruence.
Qed.

(** X2: a copy compares equal to its source whenever [operator==] of the
    element type is reflexive. *)
Theorem construct_copy_compares_equal w other cs :
  (∀ x, eqT x x = true) → wf w → represents w other cs →
  match construct_copy other w with
  | Ok this w' =>
      operator_eq this other w' = Ok true w' ∧
      operator_ne this other w' = Ok false w'
  | Throw w' => w' = w
  | _ => False
  end.
Proof.
  intros Hrefl Hwf Hother.
  pose proof (construct_copy_spec w other cs Hwf Hother) as H.
  destruct (construct_copy other w) as [this w'|w'| |]; try done.
  destruct H as (new & Hxs & _ & Hwf' & Hcr).
  pose proof (cr_represents _ _ _ _ Hcr) as Hr.
  assert (this ≠ other) as Hne.
  { intros ->. destruct Hother as (L & HL & _).
    rewrite (cr_object _ _ _ _ Hcr) in HL. done. }
  assert (represents w' other cs) as Hother' by by apply (cr_other _ _ _ _ Hcr).
  assert (operator_eq this other w' = Ok true w') as Heq.
  { rewrite (operator_eq_spec _ _ _ _ _ Hr Hother'), Hxs.
    rewrite (equal_elements_refl _ Hrefl), andb_true_r. do 2 f_equal.
    apply Nat.eqb_eq. by rewrite <- (length_fmap snd new), Hxs, length_fmap. }
  split; [done|]. unfold operator_ne, bind. by rewrite Heq.
Qed.

(** X3: after a copy assignment that returns, the two lists compare equal
    (for a reflexive element [operator==]). *)
Theorem assign_compares_equal w this rhs c_this c_rhs :
  (∀ x, eqT x x = true) →
  wf w → represents w this c_this → represents w rhs c_rhs →
  match assign this rhs w with
  | Ok _ w' => operator_eq this rhs w' = Ok true w'
  | Throw w' => w' = w
  | _ => False
  end.
Proof.
  intros Hrefl Hwf Hthis Hrhs.
  destruct (decide (this = rhs)) as [->|Hne].
  - rewrite assign_self.
    rewrite (operator_eq_spec _ _ _ _ _ Hrhs Hrhs).
    by rewrite Nat.eqb_refl, (equal_elements_refl _ Hrefl).
  - pose proof (assign_spec w this rhs c_this c_rhs Hwf Hthis Hrhs Hne) as H.
    destruct (assign this rhs w) as [[] w'|w'| |]; try done.
    destruct H as (new & Hxs & _ & Hwf' & Hu).
    pose proof (list_update_represents _ _ _ _ _ Hu) as Hr.
    assert (represents w' rhs c_rhs) as Hrhs'.
    { by apply (list_update_other _ _ _ _ _ _ _ Hwf Hthis Hu). }
    rewrite (operator_eq_spec _ _ _ _ _ Hr Hrhs'), Hxs.
    rewrite (equal_elements_refl _ Hrefl), andb_true_r. do 2 f_equal.
    apply Nat.eqb_eq. by rewrite <- (length_fmap snd new), Hxs, length_fmap.
Qed.

(** X4: [Clear] returns normally, releases every node of the list and leaves
    it empty with size 0; the other lists are untouched, the store stays
    well formed, and a second [Clear] changes nothing. *)
Theorem Clear_releases_all w this cells :
  wf w → represents w this cells →
  ∃ w', Clear this w = Ok tt w' ∧
        elements_of w' this = Some [] ∧
        size_of w' this = Some 0%Z ∧
        IsEmpty this w' = Ok true w' ∧
        (∀ a, a ∈ cells.*1 → heap w' !! a = None) ∧
        (∀ a, a ∉ cells.*1 → heap w' !! a = heap w !! a) ∧
        (∀ l c, l ≠ this → represents w l c → represents w' l c) ∧
        Clear this w' = Ok tt w' ∧
        wf w'.
Proof.
  intros Hwf Hr.
  destruct (Clear_spec w this cells Hwf Hr) as (w' & Hrun & Hwf' & Hu).
  pose proof (list_update_represents _ _ _ _ _ Hu) as Hr'.
  exists w'. split_and!; try done.
  - by rewrite (represents_elements_of _ _ _ Hr').
  - by rewrite (represents_size_of _ _ _ Hr').
  - destruct Hr' as (L & HL & _ & Hs). unfold IsEmpty, bind, read_size, ret.
    by rewrite HL, Hs.
  - intros a Hin. apply (lu_freed _ _ _ _ _ Hu); [done | apply not_elem_of_nil].
  - intros a Hin. apply (lu_frame _ _ _ _ _ Hu); [done | apply not_elem_of_nil].
  - intros l c Hne. by apply (list_update_other _ _ _ _ _ _ _ Hwf Hr Hu).
  - pose proof Hr' as (L & HL & Hc & Hs). unfold Clear, bind.
    rewrite (Clear_loop_run this [] _ w' L HL Hc) by (simpl; lia).
    unfold write_size. simpl. rewrite lookup_insert_eq. simpl.
    destruct w' as [ls h]. simpl in *. do 2 f_equal.
    rewrite insert_insert_eq. apply insert_id.
    rewrite HL. f_equal. destruct L as [p n]. unfold chain in Hc.
    simpl in *. by subst.
Qed.

(** X5: the destructor releases every node of the list and ends the life of
    the object; nodes of other lists and the other lists themselves are
    untouched. *)
Theorem destroy_releases_all w this cells :
  wf w → represents w this cells →
  ∃ w', destroy this w = Ok tt w' ∧
        lists w' !! this = None ∧
        (∀ a, a ∈ cells.*1 → heap w' !! a = None) ∧
        (∀ a, a ∉ cells.*1 → heap w' !! a = heap w !! a) ∧
        (∀ l c, l ≠ this → represents w l c → represents w' l c) ∧
        wf w'.
Proof.
  intros Hwf Hr.
  destruct (destroy_spec w this cells Hwf Hr)
    as (w' & Hrun & Hwf' & Hl & Hh & Hoth).
  exists w'. split_and!; try done.
  - by rewrite Hl, lookup_delete_eq.
  - intros a Hin. by rewrite Hh, decide_True.
  - intros a Hin. by rewrite Hh, decide_False.
  - intros l c Hne. by apply Hoth.
Qed.

(** X6: nothing leaks and nothing is shared: in every store reached by
    calls of the public operations in which [InsertAfter] and [EraseAfter]
    are given a cursor of the list they are called on, each live node
    belongs to exactly one live list, and once every list has been
    destroyed no node is live. *)
Theorem reachable_no_leak w :
  reachable w →
  (∀ a, is_Some (heap w !! a) →
        ∃ l, owned_by w l a ∧ ∀ l', owned_by w l' a → l' = l) ∧
  (lists w = ∅ → heap w = ∅).
Proof.
  intros Hreach. apply reachable_wf in Hreach. split.
  - intros a Hlive. destruct (wf_no_leak _ Hreach a Hlive) as [l Hl].
    exists l. split; [done|]. intros l' Hl'. by eapply (wf_disjoint _ Hreach).
  - intros Hempty. apply map_empty. intros a.
    destruct (heap w !! a) as [n|] eqn:Ha; [|done].
    destruct (wf_no_leak _ Hreach a) as (l & c & (L & HL & _) & _); [by eexists|].
    rewrite Hempty, lookup_empty in HL. done.
Qed.

(** X7: in every store reached by calls of the public operations in which
    [InsertAfter] and [EraseAfter] are given a cursor of the list they are
    called on, [GetSize()] is the number of elements a traversal meets,
    and it has not wrapped: it is below [2^64]. *)
Theorem GetSize_counts_elements w l L :
  reachable w → lists w !! l = Some L →
  ∃ xs, elements_of w l = Some xs ∧
        GetSize l w = Ok (Z.of_nat (length xs)) w ∧
        (Z.of_nat (length xs) < size_t_modulus)%Z.
Proof.
  intros Hreach HL. apply reachable_wf in Hreach.
  destruct (wf_lists _ Hreach l) as [c Hc]; [by eexists|].
  exists c.*2. split; [by apply represents_elements_of|].
  rewrite length_fmap. split; [|by eapply represents_bound].
  destruct Hc as (L' & HL' & _ & Hs). unfold GetSize, read_size.
  by rewrite HL', Hs.
Qed.

(** X8: [PushFront] throws exactly when [operator new] fails or the copy of
    the element throws, and then the store is unchanged; otherwise the
    element is on a fresh node at the front, [begin()] is that node, the
    size is one more, and no existing node, cursor or other list has
    changed. *)
Theorem PushFront_prepends w this cells v :
  wf w → represents w this cells →
  match PushFront this v w with
  | Ok _ w' =>
      operator_new (heap w) ≠ None ∧ copy_throws v = false ∧
      ∃ a, heap w !! a = None ∧
           nodes_of w' this = Some ((a, v) :: cells) ∧
           size_of w' this = Some (Z.of_nat (length cells) + 1)%Z ∧
           begin this w' = Ok (node_at a) w' ∧
           (∀ b, b ≠ a → heap w' !! b = heap w !! b) ∧
           (∀ l c, l ≠ this → represents w l c → represents w' l c) ∧
           wf w'
  | Throw w' =>
      w' = w ∧ (operator_new (heap w) = None ∨ copy_throws v = true)
  | _ => False
  end.
Proof.
  intros Hwf Hr. pose proof (PushFront_spec w this cells v Hwf Hr) as Hspec.
  pose proof Hr as (L & HL & Hc & Hs).
  rewrite (PushFront_run w this L v HL) in *.
  destruct (operator_new (heap w)) as [a|] eqn:Hnew; [|by split; [|left]].
  destruct (copy_throws v) eqn:Hcp; [by split; [|right]|].
  destruct Hspec as (a' & _ & Hwf' & Hu).
  pose proof (list_update_represents _ _ _ _ _ Hu) as Hr'.
  apply operator_new_Some in Hnew as [Hfresh Hspace].
  assert (a' = a) as ->.
  { destruct Hr' as (L' & HL' & Hc' & _). simpl in HL'.
    rewrite lookup_insert_eq in HL'. injection HL' as <-.
    destruct Hc' as [Heq _]. simpl in Heq. by injection Heq. }
  split; [done|]. split; [done|]. exists a. split_and!; try done.
  - by apply represents_nodes_of.
  - rewrite (represents_size_of _ _ _ Hr'). f_equal. simpl. lia.
  - unfold begin, load_next. simpl. by rewrite lookup_insert_eq.
  - intros b Hne. simpl. by rewrite lookup_insert_ne.
  - intros l c Hne. by apply (list_update_other _ _ _ _ _ _ _ Hwf Hr Hu).
Qed.

(** X9: [PopFront] never throws: on a list with a first node it unlinks and
    releases that node and the size is one less; on an empty list its
    [assert] fails. *)
Theorem PopFront_removes_first w this cells :
  wf w → represents w this cells →
  match PopFront this w with
  | Ok _ w' =>
      ∃ a v rest, cells = (a, v) :: rest ∧
        nodes_of w' this = Some rest ∧
        size_of w' this = Some (Z.of_nat (length cells) - 1)%Z ∧
        heap w' !! a = None ∧
        (∀ l c, l ≠ this → represents w l c → represents w' l c) ∧
        wf w'
  | Undefined => cells = []
  | _ => False
  end.
Proof.
  intros Hwf Hr. pose proof (PopFront_spec w this cells Hwf Hr) as Hspec.
  destruct (PopFront this w) as [[] w'|w'| |]; try done.
  destruct Hspec as ([a v] & rest & -> & Hwf' & Hu).
  pose proof (list_update_represents _ _ _ _ _ Hu) as Hr'.
  exists a, v, rest. split_and!; try done.
  - by apply represents_nodes_of.
  - rewrite (represents_size_of _ _ _ Hr'). f_equal. simpl. lia.
  - pose proof Hr as (L & _ & Hc & _). apply chain_NoDup in Hc.
    simpl in Hc. apply NoDup_cons in Hc as [Hnot _].
    apply (lu_freed _ _ _ _ _ Hu); [left | done].
  - intros l c Hne. by apply (list_update_other _ _ _ _ _ _ _ Hwf Hr Hu).
Qed.

(** X10: [EraseAfter(before_begin())] and [PopFront()] end the same way in the
    same store, whatever the store. *)
Theorem EraseAfter_before_begin_PopFront w this :
  same_effect (EraseAfter this (before_begin this) w) (PopFront this w).
Proof.
  rewrite PopFront_EraseAfter. unfold bind, ret.
  by destruct (EraseAfter this (before_begin this) w).
Qed.

Lemma iterator_on_node w this pre a v post :
  represents w this (pre ++ (a, v) :: post) →
  iterator_deref (node_at a) w = Ok v w ∧
  iterator_incr (node_at a) w = Ok (head_ptr post) w.
Proof.
  intros (L & _ & Hc & _). apply chain_split in Hc as (_ & nx & Hn & Hpost).
  apply lseg_head in Hpost as ->.
  unfold iterator_deref, iterator_incr. by run.
Qed.

Lemma begin_head_ptr w l cells :
  represents w l cells → begin l w = Ok (head_ptr cells) w.
Proof.
  intros (L & HL & Hc & _). apply lseg_head in Hc.
  unfold begin, load_next. by rewrite HL, Hc.
Qed.

Lemma advance_chain w this k : ∀ pre post,
  represents w this (pre ++ post) → k ≤ length post →
  advance k (head_ptr post) w = Ok (head_ptr (drop k post)) w.
Proof.
  induction k as [|k IH]; intros pre post Hr Hk; [by rewrite drop_0|].
  destruct post as [|[a v] post]; simpl in Hk; [lia|].
  simpl. unfold bind.
  destruct (iterator_on_node _ _ _ _ _ _ Hr) as [_ ->].
  apply (IH (pre ++ [(a, v)])); [by rewrite <- app_assoc | lia].
Qed.

(** X11: a traversal with the iterators visits the elements in order: [k]
    increments from [begin()] reach a cursor that is not [end()] and
    dereferences to the [k]-th element, and as many increments as there
    are elements reach [end()]. *)
Theorem iterator_traversal w l cells :
  represents w l cells →
  (∀ k x, cells.*2 !! k = Some x →
     (let* first := begin l in
      let* it := advance k first in
      let* v := iterator_deref it in
      ret (iterator_neq it (end_ l), v)) w = Ok (true, x) w) ∧
  (let* first := begin l in advance (length cells) first) w = Ok (end_ l) w.
Proof.
  intros Hr. split.
  - intros k x Hk. rewrite list_lookup_fmap in Hk.
    destruct (cells !! k) as [[a x']|] eqn:Hcell; [|done].
    simpl in Hk. injection Hk as ->.
    pose proof (lookup_lt_Some _ _ _ Hcell) as Hlt.
    unfold bind at 1. rewrite (begin_head_ptr _ _ _ Hr).
    unfold bind at 1.
    rewrite (advance_chain w l k [] cells Hr) by lia.
    rewrite (drop_S _ _ _ Hcell). simpl.
    rewrite <- (take_drop_middle _ _ _ Hcell) in Hr.
    destruct (iterator_on_node _ _ _ _ _ _ Hr) as [Hd _].
    unfold bind. by rewrite Hd.
  - unfold bind. rewrite (begin_head_ptr _ _ _ Hr).
    rewrite (advance_chain w l (length cells) [] cells Hr) by lia.
    by rewrite drop_all.
Qed.

(** X12: incrementing or dereferencing [end()], and [InsertAfter] or
    [EraseAfter] at [end()], fail their [assert] in every store. *)
Theorem end_cursor_asserts w this v :
  iterator_incr (end_ this) w = Undefined ∧
  iterator_deref (end_ this) w = Undefined ∧
  InsertAfter this (end_ this) v w = Undefined ∧
  EraseAfter this (end_ this) w = Undefined.
Proof.
  split_and!; try done.
  unfold EraseAfter, bind, read_size, assert. simpl.
  destruct (lists w !! this); [|done]. by rewrite andb_false_r.
Qed.

(** X13: [EraseAfter] at the last position of a list, and so at
    [before_begin()] of an empty list, fails its [assert]. *)
Theorem EraseAfter_without_successor w this cells :
  wf w → represents w this cells →
  EraseAfter this (position this cells) w = Undefined.
Proof.
  intros Hwf Hr. rewrite <- (app_nil_r cells) in Hr.
  pose proof (EraseAfter_spec w this cells [] Hwf Hr) as H.
  destruct (EraseAfter this (position this cells) w) as [p w'|w'| |]; try done.
  by destruct H as (? & ? & ? & ? & _).
Qed.

Lemma bind_no_throw {A B} (m : M A) (k : A → M B) :
  (∀ w w', m w ≠ Throw w') → (∀ a w w', k a w ≠ Throw w') →
  ∀ w w', bind m k w ≠ Throw w'.
Proof.
  intros Hm Hk w w'. unfold bind. specialize (Hm w).
  destruct (m w) as [a w1|w1| |]; try done.
  intros _. by apply (Hm w1).
Qed.

Lemma load_next_no_throw p w w' : load_next p w ≠ Throw w'.
Proof. unfold load_next. by repeat case_match. Qed.

Lemma store_next_no_throw p q w w' : store_next p q w ≠ Throw w'.
Proof. unfold store_next. by repeat case_match. Qed.

Lemma incr_size_no_throw this w w' : incr_size this w ≠ Throw w'.
Proof.
  unfold incr_size, bind, read_size, write_size. by repeat case_match.
Qed.

(** X14: [InsertAfter] at any position of the list: the new node is fresh, it
    follows [pos] and is followed by the old successor of [pos], the
    returned cursor dereferences to the value, the size is one more and
    other lists are untouched.  It throws exactly when [operator new]
    fails or the copy throws, with the store unchanged. *)
Theorem InsertAfter_links_new_node w this pre post v :
  wf w → represents w this (pre ++ post) →
  match InsertAfter this (position this pre) v w with
  | Ok p w' =>
      operator_new (heap w) ≠ None ∧ copy_throws v = false ∧
      ∃ a, p = node_at a ∧ heap w !! a = None ∧
           nodes_of w' this = Some (pre ++ (a, v) :: post) ∧
           size_of w' this = Some (Z.of_nat (length (pre ++ post)) + 1)%Z ∧
           iterator_deref p w' = Ok v w' ∧
           iterator_incr p w' = Ok (head_ptr post) w' ∧
           iterator_incr (position this pre) w' = Ok p w' ∧
           (∀ l c, l ≠ this → represents w l c → represents w' l c) ∧
           wf w'
  | Throw w' =>
      w' = w ∧ (operator_new (heap w) = None ∨ copy_throws v = true)
  | _ => False
  end.
Proof.
  intros Hwf Hr. pose proof (InsertAfter_spec w this pre post v Hwf Hr) as Hspec.
  assert (is_null (position this pre) = false) as Hnn.
  { unfold position. by destruct (last pre). }
  assert (match InsertAfter this (position this pre) v w with
          | Ok _ _ => operator_new (heap w) ≠ None ∧ copy_throws v = false
          | Throw _ => operator_new (heap w) = None ∨ copy_throws v = true
          | _ => True
          end) as Hwhy.
  { unfold InsertAfter, bind at 1, assert. rewrite Hnn. simpl.
    unfold bind at 1. rewrite (load_next_position _ _ _ _ Hr).
    unfold bind at 1, new_Node.
    destruct (operator_new (heap w)) as [a|]; [|by left].
    destruct (copy_throws v); [by right|].
    match goal with |- context [match ?o with _ => _ end] =>
      destruct o as [q w1|w1| |] eqn:Hrest end; try done.
    exfalso. revert Hrest. apply bind_no_throw; [apply store_next_no_throw|].
    intros _. apply bind_no_throw; [apply incr_size_no_throw|].
    intros _. apply load_next_no_throw. }
  destruct (InsertAfter this (position this pre) v w) as [p w'|w'| |];
    try done.
  destruct Hwhy as [Hnew Hcp]. destruct Hspec as (a & -> & _ & Hwf' & Hu).
  pose proof (list_update_represents _ _ _ _ _ Hu) as Hr'.
  split; [done|]. split; [done|]. exists a.
  destruct (iterator_on_node _ _ _ _ _ _ Hr') as [Hd Hi].
  split_and!; try done.
  - apply (lu_fresh _ _ _ _ _ Hu).
    + rewrite fmap_fst_app_cons. apply elem_of_app. right. left.
    + intros Hin. pose proof Hr' as (L' & _ & Hc' & _).
      apply chain_NoDup in Hc'. rewrite fmap_fst_app_cons in Hc'.
      apply NoDup_app in Hc' as (_ & Hpre & Hpost).
      apply NoDup_cons in Hpost as [Hpost _].
      rewrite fmap_app in Hin. apply elem_of_app in Hin as [Hin|Hin].
      * apply (Hpre a Hin). left.
      * done.
  - by apply represents_nodes_of.
  - rewrite (represents_size_of _ _ _ Hr'). f_equal.
    rewrite !length_app. simpl. lia.
  - pose proof (load_next_position w' this pre ((a, v) :: post) Hr') as Hl.
    unfold iterator_incr, bind, assert. by rewrite Hnn.
  - intros l c Hne. by apply (list_update_other _ _ _ _ _ _ _ Hwf Hr Hu).
Qed.

(** X15: [InsertAfter(pos, v)] followed by [EraseAfter(pos)] restores the whole
    store, at any position of the list, and [EraseAfter] returns the old
    successor of [pos]. *)
Theorem InsertAfter_EraseAfter w this pre post v :
  represents w this (pre ++ post) →
  match InsertAfter this (position this pre) v w with
  | Ok p w1 => EraseAfter this (position this pre) w1 = Ok (head_ptr post) w
  | Throw w1 => w1 = w
  | _ => False
  end.
Proof.
  intros Hr. pose proof Hr as (L & HL & Hc & Hs).
  pose proof (chain_length_le _ _ _ Hc) as Hlen.
  assert (∀ a, operator_new (heap w) = Some a →
    ((size_ L + 1) mod size_t_modulus)%Z = (size_ L + 1)%Z ∧
    ((size_ L + 1 - 1) mod size_t_modulus)%Z = size_ L) as Hmod.
  { intros a [_ Hspace]%operator_new_Some.
    rewrite Z.add_simpl_r, !Z.mod_small; lia. }
  destruct pre as [|[b vb] pre _] using rev_ind.
  - rewrite position_nil. simpl in Hc. pose proof (lseg_head _ _ _ Hc) as Hhead.
    unfold InsertAfter. run.
    destruct (operator_new (heap w)) as [a|] eqn:Hnew; [|done].
    destruct (copy_throws v) eqn:Hcp; [done|].
    destruct (Hmod a eq_refl) as [Hmod1 Hback].
    apply operator_new_Some in Hnew as [Hfresh Hspace]. run.
    unfold EraseAfter. run. rewrite Hmod1.
    destruct (Z.eqb_spec (size_ L + 1) 0) as [Hz|_]; [lia|]. run.
    rewrite Hback. f_equal; [done|].
    destruct w as [ls h]. simpl in *. f_equal.
    + rewrite !insert_insert_eq. destruct L. by apply insert_id.
    + by rewrite delete_insert_eq, delete_id.
  - rewrite position_snoc. rewrite <- app_assoc in Hc. simpl in Hc.
    pose proof (chain_split _ _ _ _ _ _ Hc) as (_ & nx & Hb & Hpost).
    apply lseg_head in Hpost as ->.
    unfold InsertAfter. run.
    destruct (operator_new (heap w)) as [a|] eqn:Hnew; [|done].
    destruct (copy_throws v) eqn:Hcp; [done|].
    destruct (Hmod a eq_refl) as [Hmod1 Hback].
    apply operator_new_Some in Hnew as [Hfresh Hspace].
    assert (a ≠ b) as Hab by congruence.
    assert (b ≠ a) as Hba by congruence.
    run.
    unfold EraseAfter. run. rewrite Hmod1.
    destruct (Z.eqb_spec (size_ L + 1) 0) as [Hz|_]; [lia|]. run.
    rewrite Hback. f_equal.
    destruct w as [ls h]. simpl in *. f_equal.
    + rewrite !insert_insert_eq. destruct L. by apply insert_id.
    + apply map_eq. intros k. destruct (decide (k = b)) as [->|Hkb].
      * by rewrite lookup_insert_eq.
      * rewrite lookup_insert_ne by done.
        destruct (decide (k = a)) as [->|Hka].
        -- by rewrite lookup_delete_eq.
        -- by rewrite lookup_delete_ne, !lookup_insert_ne by done.
Qed.

Lemma swap_twice w this other L1 L2 :
  lists w !! this = Some L1 → lists w !! other = Some L2 →
  (let* _ := swap this other in swap this other) w = Ok tt w.
Proof.
  intros H1 H2. unfold bind. rewrite (swap_run w this other L1 L2 H1 H2).
  destruct (decide (this = other)) as [->|Hne].
  - assert (L2 = L1) as -> by congruence.
    rewrite (swap_run _ other other L1 L1);
      [|simpl; by rewrite lookup_insert_eq..].
    destruct w as [ls h]. simpl in *. f_equal. f_equal.
    rewrite !insert_insert_eq. by apply insert_id.
  - rewrite (swap_run _ this other L2 L1).
    + destruct w as [ls h]. simpl in *. f_equal. f_equal.
      apply map_eq. intros k.
      destruct (decide (k = other)) as [->|?]; [by rewrite lookup_insert_eq|].
      rewrite lookup_insert_ne by done.
      destruct (decide (k = this)) as [->|?]; [by rewrite lookup_insert_eq|].
      by rewrite !lookup_insert_ne by done.
    + simpl. by rewrite lookup_insert_ne, lookup_insert_eq by done.
    + simpl. by rewrite lookup_insert_eq.
Qed.

Lemma swap_comm w this other L1 L2 :
  lists w !! this = Some L1 → lists w !! other = Some L2 →
  swap this other w = swap other this w.
Proof.
  intros H1 H2. rewrite (swap_run w this other L1 L2 H1 H2).
  rewrite (swap_run w other this L2 L1 H2 H1).
  destruct (decide (this = other)) as [->|Hne]; [by congruence|].
  by rewrite (insert_insert_ne _ this other) by done.
Qed.

(** X16: [swap] is its own inverse and does not depend on the order of its two
    lists, so the free [swap(rhs, lhs)] undoes the member [lhs.swap(rhs)];
    swapping a list with itself leaves the store alone. *)
Theorem swap_involutive w this other L1 L2 :
  lists w !! this = Some L1 → lists w !! other = Some L2 →
  (let* _ := swap this other in swap this other) w = Ok tt w ∧
  swap this other w = swap other this w ∧
  (let* _ := swap this other in swap_lists other this) w = Ok tt w ∧
  swap this this w = Ok tt w.
Proof.
  intros H1 H2. split_and!.
  - by apply (swap_twice w this other L1 L2).
  - by apply (swap_comm w this other L1 L2).
  - rewrite <- (swap_twice w this other L1 L2 H1 H2).
    unfold swap_lists, bind. rewrite (swap_run w this other L1 L2 H1 H2).
    apply (swap_comm _ other this L1 L2); simpl.
    + by rewrite lookup_insert_eq.
    + destruct (decide (this = other)) as [->|Hne].
      * rewrite lookup_insert_eq. congruence.
      * by rewrite lookup_insert_ne, lookup_insert_eq by done.
  - rewrite (swap_run w this this L1 L1 H1 H1).
    destruct w as [ls h]. simpl in *. f_equal. f_equal.
    rewrite insert_insert_eq. by apply insert_id.
Qed.

Lemma empty_source_lists (m : gmap N SingleLinkedList) l l2 :
  l2 ≠ l →
  delete l2
    (<[l2:=mkList nullptr 0%Z]>
       (<[l2:=mkList nullptr 0%Z]>
          (<[l:=mkList nullptr 0%Z]>
             (<[l2:=mkList nullptr 0%Z]>
                (<[l:=mkList nullptr 0%Z]>
                   (<[l2:=mkList nullptr 0%Z]>
                      (<[l:=mkList nullptr 0%Z]> m)))))))
  = <[l:=mkList nullptr 0%Z]> (delete l2 m).
Proof.
  intros Hne. apply map_eq. intros k.
  destruct (decide (k = l2)) as [->|Hk2].
  { by rewrite lookup_delete_eq, lookup_insert_ne, lookup_delete_eq. }
  rewrite lookup_delete_ne by done.
  destruct (decide (k = l)) as [->|Hk].
  - by rewrite !lookup_insert_ne, !lookup_insert_eq by done.
  - by rewrite !lookup_insert_ne, lookup_delete_ne by done.
Qed.

(** X17: construction from an empty source, an empty initializer list or an
    empty list to copy: the constructor allocates no node, cannot throw
    whatever the allocator does, and leaves exactly the store of the
    default constructor. *)
Theorem construct_from_empty w :
  construct_from_values [] w = construct_default w ∧
  (∀ other, represents w other [] →
            construct_copy other w = construct_default w).
Proof.
  assert (∀ body : N → N → M unit,
    (∀ this copy, copy ≠ this →
       lists w !! this = None → lists w !! copy = None →
       let w2 := mkWorld (<[copy:=mkList nullptr 0%Z]>
                            (<[this:=mkList nullptr 0%Z]> (lists w))) (heap w) in
       body this copy w2 = swap this copy w2) →
    construct_with (fun this =>
      with_local construct_default (body this)) w = construct_default w)
    as Hgen.
  { intros body Hbody.
    unfold construct_with, construct_default.
    unfold bind at 1. unfold new_object at 1 3.
    set (l := fresh (dom (lists w))).
    assert (lists w !! l = None) as Hl by apply not_elem_of_dom, is_fresh.
    unfold bind at 1, on_throw. run.
    unfold with_local, construct_default, finally.
    unfold bind at 1. unfold new_object. cbn [lists heap].
    set (l2 := fresh (dom (<[l := _]> (lists w)))).
    assert (l2 ≠ l ∧ lists w !! l2 = None) as [Hne Hl2].
    { pose proof (is_fresh (dom (<[l:=mkList nullptr 0%Z]> (lists w)))) as Hf.
      fold l2 in Hf. rewrite dom_insert in Hf. split.
      - intros Heq. rewrite Heq in Hf. clear -Hf. set_solver.
      - apply not_elem_of_dom. clear -Hf. set_solver. }
    assert (l ≠ l2) as Hne' by done.
    clearbody l2. clearbody l.
    rewrite (Hbody l l2) by done.
    unfold swap. run. unfold destroy, Clear. run. unfold release_object. run.
    rewrite empty_source_lists by done. by rewrite delete_id. }
  split.
  - apply (Hgen (fun this copy =>
      let* it := container_begin ([] : list T) in
      let* _ := (fun w =>
        Create_loop (S (iteration_bound ([] : list T) w)) [] copy
          it (before_begin copy) w) in
      swap this copy)).
    intros this copy Hne Hthis Hcopy. by simpl.
  - intros other (L & HL & Hc & Hs). simpl in Hc, Hs.
    apply (Hgen (fun this copy =>
      let* it := container_begin other in
      let* _ := (fun w =>
        Create_loop (S (iteration_bound other w)) other copy
          it (before_begin copy) w) in
      swap this copy)).
    intros this copy Hne Hthis Hcopy.
    assert (other ≠ this) as Ho by congruence.
    assert (other ≠ copy) as Ho2 by congruence.
    simpl. unfold cbegin. run. by rewrite Hc.
Qed.

Lemma equal_elements_sym xs : ∀ ys,
  (∀ x y, eqT x y = eqT y x) → length xs = length ys →
  equal_elements xs ys = equal_elements ys xs.
Proof.
  induction xs as [|x xs IH]; intros [|y ys] Hsym Hlen; simpl in *; try done.
  rewrite (Hsym x y), (IH ys); [done..|lia].
Qed.

Lemma equal_elements_trans xs : ∀ ys zs,
  (∀ x y z, eqT x y = true → eqT y z = true → eqT x z = true) →
  length xs = length ys →
  equal_elements xs ys = true → equal_elements ys zs = true →
  equal_elements xs zs = true.
Proof.
  induction xs as [|x xs IH]; intros [|y ys] [|z zs] Htrans Hlen H1 H2;
    simpl in *; try done.
  apply andb_true_iff in H1 as [Hxy H1]. apply andb_true_iff in H2 as [Hyz H2].
  rewrite (Htrans x y z Hxy Hyz). simpl. apply (IH ys); [done|lia|done..].
Qed.

Lemma lexicographical_compare_irrefl xs :
  (∀ x, ltT x x = false) → lexicographical_compare xs xs = false.
Proof.
  intros Hirr. induction xs as [|x xs IH]; simpl; [done|]. by rewrite Hirr.
Qed.

Lemma lexicographical_compare_asym xs : ∀ ys,
  (∀ x, ltT x x = false) →
  (∀ x y z, ltT x y = true → ltT y z = true → ltT x z = true) →
  lexicographical_compare xs ys = true → lexicographical_compare ys xs = false.
Proof.
  induction xs as [|x xs IH]; intros [|y ys] Hirr Htrans H; simpl in *;
    try done.
  destruct (ltT x y) eqn:Hxy.
  - destruct (ltT y x) eqn:Hyx; [|done].
    pose proof (Htrans x y x Hxy Hyx). rewrite Hirr in *. done.
  - destruct (ltT y x) eqn:Hyx; [done|]. by apply IH.
Qed.

Lemma lexicographical_compare_trans xs : ∀ ys zs,
  (∀ x, ltT x x = false) →
  (∀ x y z, ltT x y = true → ltT y z = true → ltT x z = true) →
  (∀ x y z, ltT x y = true → ltT x z = true ∨ ltT z y = true) →
  lexicographical_compare xs ys = true → lexicographical_compare ys zs = true →
  lexicographical_compare xs zs = true.
Proof.
  induction xs as [|x xs IH]; intros [|y ys] [|z zs] Hirr Htrans Hneg H1 H2;
    simpl in *; try done.
  destruct (ltT x y) eqn:Hxy.
  - destruct (ltT y z) eqn:Hyz.
    + by rewrite (Htrans x y z Hxy Hyz).
    + destruct (ltT z y) eqn:Hzy; [done|].
      destruct (Hneg x y z Hxy) as [->|Hc]; [done | congruence].
  - destruct (ltT y x) eqn:Hyx; [done|].
    destruct (ltT y z) eqn:Hyz.
    + destruct (Hneg y z x Hyz) as [Hc| ->]; [congruence | done].
    + destruct (ltT z y) eqn:Hzy; [done|].
      destruct (ltT x z) eqn:Hxz; [done|].
      destruct (ltT z x) eqn:Hzx.
      * destruct (Hneg z x y Hzx) as [Hc|Hc]; congruence.
      * by apply (IH ys).
Qed.

(** X18: [operator==] on lists is an equivalence whenever [operator==] of the
    element type is one. *)
Theorem operator_eq_equivalence w a b c ca cb cc :
  (∀ x, eqT x x = true) →
  (∀ x y, eqT x y = eqT y x) →
  (∀ x y z, eqT x y = true → eqT y z = true → eqT x z = true) →
  represents w a ca → represents w b cb → represents w c cc →
  operator_eq a a w = Ok true w ∧
  operator_eq a b w = operator_eq b a w ∧
  (operator_eq a b w = Ok true w → operator_eq b c w = Ok true w →
   operator_eq a c w = Ok true w).
Proof.
  intros Hrefl Hsym Htrans Ha Hb Hc.
  rewrite (operator_eq_spec _ _ _ _ _ Ha Ha), (operator_eq_spec _ _ _ _ _ Ha Hb),
    (operator_eq_spec _ _ _ _ _ Hb Ha), (operator_eq_spec _ _ _ _ _ Hb Hc),
    (operator_eq_spec _ _ _ _ _ Ha Hc).
  split_and!.
  - by rewrite Nat.eqb_refl, (equal_elements_refl _ Hrefl).
  - rewrite (Nat.eqb_sym (length cb)).
    destruct (Nat.eqb_spec (length ca) (length cb)) as [Hlen|]; [|done].
    simpl. by rewrite (equal_elements_sym _ _ Hsym) by by rewrite !length_fmap.
  - intros [= [Hab H1]%andb_true_iff] [= [Hbc H2]%andb_true_iff].
    apply Nat.eqb_eq in Hab, Hbc. do 2 f_equal. apply andb_true_iff. split.
    + apply Nat.eqb_eq. congruence.
    + apply (equal_elements_trans _ cb.*2); [done| |done..].
      by rewrite !length_fmap.
Qed.

(** X19: [operator<] on lists is a strict order (irreflexive, asymmetric,
    transitive) whenever [operator<] of the element type is a strict weak
    order. *)
Theorem operator_lt_strict_order w a b c ca cb cc :
  (∀ x, ltT x x = false) →
  (∀ x y z, ltT x y = true → ltT y z = true → ltT x z = true) →
  (∀ x y z, ltT x y = true → ltT x z = true ∨ ltT z y = true) →
  represents w a ca → represents w b cb → represents w c cc →
  operator_lt a a w = Ok false w ∧
  (operator_lt a b w = Ok true w → operator_lt b a w = Ok false w) ∧
  (operator_lt a b w = Ok true w → operator_lt b c w = Ok true w →
   operator_lt a c w = Ok true w).
Proof.
  intros Hirr Htrans Hneg Ha Hb Hc.
  rewrite (operator_lt_spec _ _ _ _ _ Ha Ha), (operator_lt_spec _ _ _ _ _ Ha Hb),
    (operator_lt_spec _ _ _ _ _ Hb Ha), (operator_lt_spec _ _ _ _ _ Hb Hc),
    (operator_lt_spec _ _ _ _ _ Ha Hc).
  split_and!.
  - by rewrite (lexicographical_compare_irrefl _ Hirr).
  - intros [= H]. by rewrite (lexicographical_compare_asym _ _ Hirr Htrans H).
  - intros [= H1] [= H2].
    by rewrite (lexicographical_compare_trans _ _ _ Hirr Htrans Hneg H1 H2).
Qed.

(** X20: under a total order on the elements exactly one of [a < b], [a == b]
    and [a > b] holds, [a >= b] is [a > b] or [a == b], and [a != b] is
    [a < b] or [a > b]. *)
Theorem comparison_trichotomy w a b ca cb :
  total_order → represents w a ca → represents w b cb →
  ∃ lt eq gt : bool,
    operator_lt a b w = Ok lt w ∧
    operator_eq a b w = Ok eq w ∧
    operator_gt a b w = Ok gt w ∧
    operator_ge a b w = Ok (gt || eq) w ∧
    operator_ne a b w = Ok (lt || gt) w ∧
    negb lt = eq || gt ∧ negb eq = lt || gt ∧ negb gt = lt || eq.
Proof.
  intros Hord Ha Hb.
  assert (∀ x y, eqT x y = eqT y x) as Hsym.
  { intros x y. apply eq_true_iff_eq.
    rewrite !(lt_trichotomy Hord). tauto. }
  pose proof (le_lt_or_eq_elements ca.*2 cb.*2 Hord) as H1.
  pose proof (le_lt_or_eq_elements cb.*2 ca.*2 Hord) as H2.
  rewrite !length_fmap in H1, H2.
  rewrite (Nat.eqb_sym (length cb)) in H2.
  assert ((length ca =? length cb)%nat && equal_elements cb.*2 ca.*2 =
          (length ca =? length cb)%nat && equal_elements ca.*2 cb.*2) as Heq.
  { destruct (Nat.eqb_spec (length ca) (length cb)) as [Hlen|]; [|done].
    simpl. by rewrite (equal_elements_sym _ _ Hsym) by by rewrite !length_fmap. }
  rewrite Heq in H2.
  exists (lexicographical_compare ca.*2 cb.*2),
    ((length ca =? length cb)%nat && equal_elements ca.*2 cb.*2),
    (lexicographical_compare cb.*2 ca.*2).
  unfold operator_ge, operator_ne, operator_gt, bind, ret.
  rewrite (operator_lt_spec _ _ _ _ _ Ha Hb), (operator_lt_spec _ _ _ _ _ Hb Ha),
    (operator_eq_spec _ _ _ _ _ Ha Hb).
  revert H1 H2.
  generalize (lexicographical_compare ca.*2 cb.*2) as lt.
  generalize (lexicographical_compare cb.*2 ca.*2) as gt.
  generalize ((length ca =? length cb)%nat && equal_elements ca.*2 cb.*2) as eq.
  by intros [] [] [].
Qed.

End Proofs.

(** ** The statements on concrete stores *)

Lemma two_lists_reachable : reachable (Alloc := seven_nodes) two_lists.
Proof.
  unfold reachable. eapply (rtc_l _ _ one_list).
  { apply (step_returns _ _ (ConstructFromValues (int_values [1; 2; 3]%Z)));
      [exact I | vm_compute; reflexivity]. }
  eapply rtc_once.
  apply (step_returns _ _ (ConstructFromValues (int_values [9; 8]%Z)));
    [exact I | vm_compute; reflexivity].
Qed.

Lemma two_lists_wf : wf two_lists.
Proof. exact (reachable_wf (Alloc := seven_nodes) _ two_lists_reachable). Qed.

Lemma two_lists_a : represents two_lists 0 cells_a.
Proof. apply nodes_of_represents; vm_compute; reflexivity. Qed.

Lemma two_lists_b : represents two_lists 1 cells_b.
Proof. apply nodes_of_represents; vm_compute; reflexivity. Qed.

Lemma int_total_order : total_order (Elem := int_elements).
Proof.
  split; simpl.
  - apply Z.ltb_irrefl.
  - intros x y z. rewrite !Z.ltb_lt. lia.
  - intros x y. rewrite Z.eqb_eq, !Z.ltb_ge. lia.
Qed.

(** ** The end-to-end scenarios of the specification, run on the model *)

(** Scenario 1: the literal [1, 2, 3, 4], then [PopFront]. *)
Example scenario_literal_then_pop :
  returned
    ((let* a := construct_from_values (Alloc := seven_nodes)
                  (int_values [1; 2; 3; 4]%Z) in
      let* before := observe a in
      let* _ := PopFront a in
      let* after := observe a in
      ret (before, after)) empty_world)
  = Some ((Some [1; 2; 3; 4]%Z, Some 4%Z), (Some [2; 3; 4]%Z, Some 3%Z)).
Proof. vm_compute. reflexivity. Qed.

(** Scenario 2: three calls of [PushFront] on an empty list. *)
Example scenario_push_front :
  returned
    ((let* a := construct_default in
      let* _ := PushFront (Alloc := seven_nodes) a 10%Z in
      let* _ := PushFront (Alloc := seven_nodes) a 20%Z in
      let* _ := PushFront (Alloc := seven_nodes) a 30%Z in
      observe a) empty_world)
  = Some (Some [30; 20; 10]%Z, Some 3%Z).
Proof. vm_compute. reflexivity. Qed.

(** Scenario 3: [InsertAfter] at [begin()], then [EraseAfter] there. *)
Example scenario_insert_erase :
  returned
    ((let* a := construct_from_values (Alloc := seven_nodes)
                  (int_values [1; 2; 3]%Z) in
      let* p := begin a in
      let* q := InsertAfter (Alloc := seven_nodes) a p 99%Z in
      let* inserted := iterator_deref q in
      let* middle := observe a in
      let* r := EraseAfter a p in
      let* follower := iterator_deref r in
      let* after := observe a in
      ret (inserted, middle, follower, after)) empty_world)
  = Some (99%Z, (Some [1; 99; 2; 3]%Z, Some 4%Z),
          2%Z, (Some [1; 2; 3]%Z, Some 3%Z)).
Proof. vm_compute. reflexivity. Qed.

(** Scenario 4: [a = [1, 2, 3]] against [b = [1, 2, 4]]. *)
Example scenario_compare :
  returned
    ((let* a := construct_from_values (Alloc := seven_nodes)
                  (int_values [1; 2; 3]%Z) in
      let* b := construct_from_values (Alloc := seven_nodes)
                  (int_values [1; 2; 4]%Z) in
      let* ne := operator_ne a b in
      let* lt := operator_lt a b in
      let* gt := operator_gt b a in
      let* le := operator_le a b in
      let* ge := operator_ge a b in
      ret (ne, lt, gt, le, ge)) empty_world)
  = Some (true, true, true, true, false).
Proof. vm_compute. reflexivity. Qed.

(** Scenario 5: a copy does not follow a later [PushFront] on the source. *)
Example scenario_copy :
  returned
    ((let* a := construct_from_values (Alloc := seven_nodes)
                  (int_values [1; 2; 3]%Z) in
      let* b := construct_copy (Alloc := seven_nodes) a in
      let* _ := PushFront (Alloc := seven_nodes) a 0%Z in
      let* sa := observe a in
      let* sb := observe b in
      ret (sa, sb)) empty_world)
  = Some ((Some [0; 1; 2; 3]%Z, Some 4%Z), (Some [1; 2; 3]%Z, Some 3%Z)).
Proof. vm_compute. reflexivity. Qed.

(** Scenario 6: a cursor taken at [a.begin()] walks [1, 2, 3] in [b] after
    [swap(a, b)]. *)
Example scenario_swap :
  returned
    ((let* p := begin 0 in
      let* _ := swap_lists 0 1 in
      let* sa := observe 0 in
      let* sb := observe 1 in
      let* first := iterator_deref p in
      let* p1 := iterator_incr p in
      let* second := iterator_deref p1 in
      let* p2 := iterator_incr p1 in
      let* third := iterator_deref p2 in
      let* p3 := iterator_incr p2 in
      fun w =>
        Ok (sa, sb, [first; second; third], iterator_eq p3 (end_ 1),
            refers_into w 1 p) w) two_lists)
  = Some ((Some [9; 8]%Z, Some 2%Z), (Some [1; 2; 3]%Z, Some 3%Z),
          [1; 2; 3]%Z, true, true).
Proof. vm_compute. reflexivity. Qed.

(** [InsertAfter] trusts its caller on the list of [pos]: called on [a]
    with a cursor of [b] it links the node into [b] and counts it in [a].
    Such a call breaks the precondition of [InsertAfter]; [admissible]
    leaves it out of [reachable]. *)
Example insert_after_foreign_cursor :
  returned
    ((let* _ := InsertAfter (Alloc := seven_nodes) 0 (before_begin 1) 5%Z in
      let* sa := observe 0 in
      let* sb := observe 1 in
      ret (sa, sb)) two_lists)
  = Some ((Some [1; 2; 3]%Z, Some 4%Z), (Some [5; 9; 8]%Z, Some 2%Z)).
Proof. vm_compute. reflexivity. Qed.

(** With room for seven nodes and five in use, [b = a] fails at the third
    node of the copy and the store is unchanged. *)
Example assign_fails_partway :
  assign (Alloc := seven_nodes) 1 0 two_lists = Throw two_lists.
Proof. vm_compute. reflexivity. Qed.

(** [a = b] needs two nodes and succeeds. *)
Example assign_succeeds :
  observable (assign (Alloc := seven_nodes) 0 1 two_lists) 0
  = Some (Some (int_values [9; 8]%Z), Some 2%Z).
Proof. vm_compute. reflexivity. Qed.

Lemma assign_strong_guarantee_witness :
  wf two_lists ∧ represents two_lists 0 cells_a ∧ represents two_lists 1 cells_b ∧
  (0%N ≠ 1%N →
   match assign (Alloc := seven_nodes) 0 1 two_lists with
   | Ok _ w' =>
       elements_of w' 0 = Some cells_b.*2 ∧
       size_of w' 0 = Some (Z.of_nat (length cells_b)) ∧
       represents w' 1 cells_b ∧
       dom (lists w') = dom (lists two_lists) ∧
       (∀ a, a ∈ cells_a.*1 → heap w' !! a = None) ∧
       wf w'
   | Throw w' => w' = two_lists
   | _ => False
   end) ∧
  assign (Alloc := seven_nodes) 0 0 two_lists = Ok tt two_lists.
Proof.
  split; [apply two_lists_wf|]. split; [apply two_lists_a|].
  split; [apply two_lists_b|].
  exact (assign_strong_guarantee (Alloc := seven_nodes) two_lists 0 1
           cells_a cells_b two_lists_wf two_lists_a two_lists_b).
Defined.

(** C2 as stated fails on [a{1, 2, 3}], [b{9, 8}]: the cursor
    [a.before_begin()] is the address of the sentinel embedded in [a] and
    is no cursor of [b] after [swap(a, b)]. *)
Lemma swap_before_begin_counterexample :
  ¬ swap_contract_as_stated two_lists 0 1.
Proof.
  intros (w' & Hswap & _ & _ & _ & _ & Hcur & _).
  vm_compute in Hswap. injection Hswap as <-.
  specialize (Hcur (before_begin 0) eq_refl). vm_compute in Hcur. discriminate.
Qed.

Lemma swap_exchanges_chains_witness :
  represents two_lists 0 cells_a ∧ represents two_lists 1 cells_b ∧
  ∃ w', swap_lists 0 1 two_lists = Ok tt w' ∧
    elements_of w' 0 = elements_of two_lists 1 ∧
    elements_of w' 1 = elements_of two_lists 0 ∧
    size_of w' 0 = size_of two_lists 1 ∧
    size_of w' 1 = size_of two_lists 0 ∧
    (∀ p, p ≠ before_begin 0 → refers_into two_lists 0 p = true →
          refers_into w' 1 p = true) ∧
    (∀ p, p ≠ before_begin 1 → refers_into two_lists 1 p = true →
          refers_into w' 0 p = true) ∧
    refers_into w' 0 (before_begin 0) = true ∧
    refers_into w' 1 (before_begin 1) = true ∧
    iterator_incr (before_begin 0) w' = Ok (head_ptr cells_b) w' ∧
    iterator_incr (before_begin 1) w' = Ok (head_ptr cells_a) w' ∧
    (0%N ≠ 1%N → refers_into w' 1 (before_begin 0) = false ∧
                 refers_into w' 0 (before_begin 1) = false).
Proof.
  split; [apply two_lists_a|]. split; [apply two_lists_b|].
  exact (swap_exchanges_chains two_lists 0 1 cells_a cells_b
           two_lists_a two_lists_b).
Defined.

Lemma operator_eq_pairwise_witness :
  represents two_lists 0 cells_a ∧ represents two_lists 1 cells_b ∧
  ∃ b : bool,
    operator_eq 0 1 two_lists = Ok b two_lists ∧
    (b = true ↔
       size_of two_lists 0 = size_of two_lists 1 ∧
       pairwise_equal cells_a.*2 cells_b.*2) ∧
    operator_ne 0 1 two_lists = Ok (negb b) two_lists.
Proof.
  split; [apply two_lists_a|]. split; [apply two_lists_b|].
  exact (operator_eq_pairwise two_lists 0 1 cells_a cells_b
           two_lists_a two_lists_b).
Defined.

Lemma operator_lt_lexicographic_witness :
  represents two_lists 0 cells_a ∧ represents two_lists 1 cells_b ∧
  ∃ lt gt : bool,
    operator_lt 0 1 two_lists = Ok lt two_lists ∧
    (lt = true ↔ lex_less cells_a.*2 cells_b.*2) ∧
    operator_gt 0 1 two_lists = Ok gt two_lists ∧
    (gt = true ↔ lex_less cells_b.*2 cells_a.*2) ∧
    operator_le 0 1 two_lists = Ok (negb gt) two_lists ∧
    operator_ge 0 1 two_lists = Ok (negb lt) two_lists ∧
    (cells_a = [] → cells_b ≠ [] → lt = true) ∧
    (∀ ext, ext ≠ [] → cells_b.*2 = cells_a.*2 ++ ext → lt = true).
Proof.
  split; [apply two_lists_a|]. split; [apply two_lists_b|].
  exact (operator_lt_lexicographic two_lists 0 1 cells_a cells_b
           two_lists_a two_lists_b).
Defined.

Lemma operator_le_lt_or_eq_witness :
  total_order (Elem := int_elements) ∧
  represents two_lists 0 cells_a ∧ represents two_lists 1 cells_b ∧
  ∃ le lt eq : bool,
    operator_le 0 1 two_lists = Ok le two_lists ∧
    operator_lt 0 1 two_lists = Ok lt two_lists ∧
    operator_eq 0 1 two_lists = Ok eq two_lists ∧
    (le = true ↔ lt = true ∨ eq = true).
Proof.
  split; [apply int_total_order|].
  split; [apply two_lists_a|]. split; [apply two_lists_b|].
  exact (operator_le_lt_or_eq two_lists 0 1 cells_a cells_b
           int_total_order two_lists_a two_lists_b).
Defined.

Lemma PushFront_PopFront_witness :
  represents two_lists 1 cells_b ∧
  match PushFront (Alloc := seven_nodes) 1 7%Z two_lists with
  | Ok _ w1 =>
      PopFront 1 w1 = Ok tt two_lists ∧
      elements_of w1 1 = Some (7%Z :: cells_b.*2)
  | Throw w1 => w1 = two_lists
  | _ => False
  end.
Proof.
  split; [apply two_lists_b|].
  exact (PushFront_PopFront (Alloc := seven_nodes) two_lists 1 cells_b 7%Z
           two_lists_b).
Defined.

Lemma EraseAfter_removes_successor_witness :
  wf two_lists ∧
  represents two_lists 0 (int_cells [(0%N, 1%Z)] ++ (1%N, 2%Z) :: int_cells [(2%N, 3%Z)]) ∧
  ∃ w',
    EraseAfter 0 (node_at 0) two_lists = Ok (node_at 2) w' ∧
    elements_of w' 0 = Some (int_values [1; 3]%Z) ∧
    size_of w' 0 = Some 2%Z ∧
    heap w' !! 1%N = None ∧
    wf w'.
Proof.
  split; [apply two_lists_wf|]. split; [apply two_lists_a|].
  destruct (EraseAfter_removes_successor two_lists 0
              (int_cells [(0%N, 1%Z)]) 1%N 2%Z (int_cells [(2%N, 3%Z)])
              two_lists_wf two_lists_a)
    as (w' & Hrun & _ & Hel & Hsz & Hfree & _ & _ & Hwf).
  exists w'. done.
Defined.

Lemma construct_from_values_elements_witness :
  wf (empty_world (Elem := int_elements)) ∧
  ∃ this w',
    construct_from_values (Alloc := seven_nodes) (int_values [1; 2; 3; 4]%Z)
      empty_world = Ok this w' ∧
    elements_of w' this = Some (int_values [1; 2; 3; 4]%Z) ∧
    size_of w' this = Some 4%Z ∧
    wf w'.
Proof.
  split; [apply wf_empty_world|].
  pose proof (construct_from_values_elements (Alloc := seven_nodes) empty_world
                (int_values [1; 2; 3; 4]%Z) wf_empty_world) as H.
  destruct (construct_from_values (int_values [1; 2; 3; 4]%Z) empty_world)
    as [this w'|w'| |] eqn:Hrun;
    [|vm_compute in Hrun; discriminate..].
  exists this, w'. destruct H as (Hel & Hsz & _ & Hwf). done.
Defined.

(** [foreign_insert] is reached by three calls that return. *)
Lemma foreign_insert_reachable :
  reachable_unchecked (Alloc := seven_nodes) foreign_insert.
Proof.
  unfold reachable_unchecked.
  eapply (rtc_l _ _ (mkWorld (<[0%N := mkList nullptr 0]> ∅) ∅)).
  { apply (unchecked_returns _ _ DefaultConstruct);
      [exact I | vm_compute; reflexivity]. }
  eapply (rtc_l _ _ empty_and_pair).
  { apply (unchecked_returns _ _ (ConstructFromValues (int_values [9; 8]%Z)));
      [exact I | vm_compute; reflexivity]. }
  eapply rtc_once.
  apply (unchecked_returns _ _
           (@CallInsertAfter int_elements 0 (before_begin 1) 5%Z)).
  - by eexists.
  - vm_compute. reflexivity.
Qed.

(** C9 as stated fails on [SingleLinkedList<int> a, b{9, 8};] followed by
    [a.InsertAfter(b.before_begin(), 5)]: the call passes its only
    [assert], the node joins the chain of [b] and the size of [a] goes up,
    so [a.IsEmpty()] is false while [a.begin()] is [a.end()]. *)
Lemma IsEmpty_foreign_cursor_counterexample :
  ¬ IsEmpty_contract_as_stated (Elem := int_elements) (Alloc := seven_nodes).
Proof.
  intros Hcontract.
  destruct (Hcontract foreign_insert 0%N (mkList nullptr 1)
              foreign_insert_reachable eq_refl)
    as (b & p & Hb & Hp & Hiff).
  vm_compute in Hb. vm_compute in Hp.
  injection Hb as <-. injection Hp as <-.
  destruct Hiff as [_ Hback]. by specialize (Hback eq_refl).
Qed.

Lemma IsEmpty_iff_begin_is_end_witness :
  reachable (Alloc := seven_nodes) two_lists ∧
  lists two_lists !! 0%N = Some (mkList (node_at 0) 3) ∧
  ∃ b p, IsEmpty 0 two_lists = Ok b two_lists ∧
         begin 0 two_lists = Ok p two_lists ∧
         (b = true ↔ iterator_eq p (end_ 0) = true) ∧
         (size_ (mkList (node_at 0) 3) = 0%Z
          ↔ head_next_node (mkList (node_at 0) 3) = nullptr).
Proof.
  split; [apply two_lists_reachable|]. split; [vm_compute; reflexivity|].
  apply (IsEmpty_iff_begin_is_end (Alloc := seven_nodes) two_lists 0
           (mkList (node_at 0) 3) two_lists_reachable).
  vm_compute. reflexivity.
Defined.

(** ** The further properties on concrete stores *)

Lemma one_empty_list_empty : represents one_empty_list 0 [].
Proof. apply nodes_of_represents; vm_compute; reflexivity. Qed.

Lemma construct_copy_elements_witness :
  wf two_lists ∧ represents two_lists 1 cells_b ∧
  match construct_copy (Alloc := seven_nodes) 1 two_lists with
  | Ok this w' =>
      this ≠ 1%N ∧
      elements_of w' this = Some cells_b.*2 ∧
      size_of w' this = Some (Z.of_nat (length cells_b)) ∧
      represents w' 1 cells_b ∧
      (∃ new, nodes_of w' this = Some new ∧
              ∀ a, a ∈ new.*1 → (a ∉ cells_b.*1) ∧ heap two_lists !! a = None) ∧
      wf w'
  | Throw w' => w' = two_lists
  | _ => False
  end.
Proof.
  split; [apply two_lists_wf|]. split; [apply two_lists_b|].
  exact (construct_copy_elements (Alloc := seven_nodes) two_lists 1 cells_b
           two_lists_wf two_lists_b).
Defined.

Lemma construct_copy_compares_equal_witness :
  (∀ x : Z, (x =? x)%Z = true) ∧ wf two_lists ∧ represents two_lists 1 cells_b ∧
  match construct_copy (Alloc := seven_nodes) 1 two_lists with
  | Ok this w' =>
      operator_eq this 1 w' = Ok true w' ∧
      operator_ne this 1 w' = Ok false w'
  | Throw w' => w' = two_lists
  | _ => False
  end.
Proof.
  split; [apply Z.eqb_refl|]. split; [apply two_lists_wf|].
  split; [apply two_lists_b|].
  exact (construct_copy_compares_equal (Elem := int_elements)
           (Alloc := seven_nodes) two_lists 1 cells_b
           Z.eqb_refl two_lists_wf two_lists_b).
Defined.

Lemma assign_compares_equal_witness :
  (∀ x : Z, (x =? x)%Z = true) ∧ wf two_lists ∧
  represents two_lists 0 cells_a ∧ represents two_lists 1 cells_b ∧
  match assign (Alloc := seven_nodes) 0 1 two_lists with
  | Ok _ w' => operator_eq 0 1 w' = Ok true w'
  | Throw w' => w' = two_lists
  | _ => False
  end.
Proof.
  split; [apply Z.eqb_refl|]. split; [apply two_lists_wf|].
  split; [apply two_lists_a|]. split; [apply two_lists_b|].
  exact (assign_compares_equal (Elem := int_elements) (Alloc := seven_nodes)
           two_lists 0 1 cells_a cells_b
           Z.eqb_refl two_lists_wf two_lists_a two_lists_b).
Defined.

Lemma Clear_releases_all_witness :
  wf two_lists ∧ represents two_lists 0 cells_a ∧
  ∃ w', Clear 0 two_lists = Ok tt w' ∧
        elements_of w' 0 = Some [] ∧
        size_of w' 0 = Some 0%Z ∧
        heap w' !! 1%N = None ∧
        represents w' 1 cells_b ∧
        Clear 0 w' = Ok tt w' ∧
        wf w'.
Proof.
  split; [apply two_lists_wf|]. split; [apply two_lists_a|].
  destruct (Clear_releases_all two_lists 0 cells_a two_lists_wf two_lists_a)
    as (w' & Hrun & Hel & Hsz & _ & Hfree & _ & Hoth & Hagain & Hwf).
  exists w'. split_and!; try done.
  - apply Hfree. vm_compute. set_solver.
  - by apply Hoth; [|apply two_lists_b].
Defined.

Lemma destroy_releases_all_witness :
  wf two_lists ∧ represents two_lists 0 cells_a ∧
  ∃ w', destroy 0 two_lists = Ok tt w' ∧
        lists w' !! 0%N = None ∧
        heap w' !! 2%N = None ∧
        represents w' 1 cells_b ∧
        wf w'.
Proof.
  split; [apply two_lists_wf|]. split; [apply two_lists_a|].
  destruct (destroy_releases_all two_lists 0 cells_a two_lists_wf two_lists_a)
    as (w' & Hrun & Hgone & Hfree & _ & Hoth & Hwf).
  exists w'. split_and!; try done.
  - apply Hfree. vm_compute. set_solver.
  - by apply Hoth; [|apply two_lists_b].
Defined.

Lemma reachable_no_leak_witness :
  reachable (Alloc := seven_nodes) two_lists ∧
  (∀ a, is_Some (heap two_lists !! a) →
        ∃ l, owned_by two_lists l a ∧
             ∀ l', owned_by two_lists l' a → l' = l) ∧
  (lists two_lists = ∅ → heap two_lists = ∅).
Proof.
  split; [apply two_lists_reachable|].
  exact (reachable_no_leak (Alloc := seven_nodes) two_lists
           two_lists_reachable).
Defined.

Lemma GetSize_counts_elements_witness :
  reachable (Alloc := seven_nodes) two_lists ∧
  lists two_lists !! 1%N = Some (mkList (node_at 3) 2) ∧
  ∃ xs, elements_of two_lists 1 = Some xs ∧
        GetSize 1 two_lists = Ok (Z.of_nat (length xs)) two_lists ∧
        (Z.of_nat (length xs) < size_t_modulus)%Z.
Proof.
  split; [apply two_lists_reachable|]. split; [vm_compute; reflexivity|].
  apply (GetSize_counts_elements (Alloc := seven_nodes) two_lists 1
           (mkList (node_at 3) 2) two_lists_reachable).
  vm_compute. reflexivity.
Defined.

Lemma PushFront_prepends_witness :
  wf two_lists ∧ represents two_lists 1 cells_b ∧
  match PushFront (Alloc := seven_nodes) 1 7%Z two_lists with
  | Ok _ w' =>
      operator_new (Alloc := seven_nodes) (heap two_lists) ≠ None ∧
      copy_throws (ElementType := int_elements) 7%Z = false ∧
      ∃ a, heap two_lists !! a = None ∧
           nodes_of w' 1 = Some ((a, 7%Z) :: cells_b) ∧
           size_of w' 1 = Some (Z.of_nat (length cells_b) + 1)%Z ∧
           begin 1 w' = Ok (node_at a) w' ∧
           (∀ b, b ≠ a → heap w' !! b = heap two_lists !! b) ∧
           (∀ l c, l ≠ 1%N → represents two_lists l c → represents w' l c) ∧
           wf w'
  | Throw w' =>
      w' = two_lists ∧
      (operator_new (Alloc := seven_nodes) (heap two_lists) = None ∨
       copy_throws (ElementType := int_elements) 7%Z = true)
  | _ => False
  end.
Proof.
  split; [apply two_lists_wf|]. split; [apply two_lists_b|].
  exact (PushFront_prepends (Alloc := seven_nodes) two_lists 1 cells_b 7%Z
           two_lists_wf two_lists_b).
Defined.

Lemma PopFront_removes_first_witness :
  wf two_lists ∧ represents two_lists 0 cells_a ∧
  match PopFront 0 two_lists with
  | Ok _ w' =>
      ∃ a v rest, cells_a = (a, v) :: rest ∧
        nodes_of w' 0 = Some rest ∧
        size_of w' 0 = Some (Z.of_nat (length cells_a) - 1)%Z ∧
        heap w' !! a = None ∧
        (∀ l c, l ≠ 0%N → represents two_lists l c → represents w' l c) ∧
        wf w'
  | Undefined => cells_a = []
  | _ => False
  end.
Proof.
  split; [apply two_lists_wf|]. split; [apply two_lists_a|].
  exact (PopFront_removes_first two_lists 0 cells_a two_lists_wf two_lists_a).
Defined.

Lemma iterator_traversal_witness :
  represents two_lists 0 cells_a ∧
  (let* first := begin 0 in
   let* it := advance 2 first in
   let* v := iterator_deref it in
   ret (iterator_neq it (end_ 0), v)) two_lists = Ok (true, 3%Z) two_lists ∧
  (let* first := begin 0 in advance 3 first) two_lists = Ok (end_ 0) two_lists.
Proof.
  split; [apply two_lists_a|].
  destruct (iterator_traversal two_lists 0 cells_a two_lists_a) as [Hk Hend].
  split; [|exact Hend]. by apply (Hk 2%nat 3%Z).
Defined.

Lemma EraseAfter_without_successor_witness :
  wf two_lists ∧ represents two_lists 0 cells_a ∧
  EraseAfter 0 (node_at 2) two_lists = Undefined.
Proof.
  split; [apply two_lists_wf|]. split; [apply two_lists_a|].
  exact (EraseAfter_without_successor two_lists 0 cells_a
           two_lists_wf two_lists_a).
Defined.

Lemma InsertAfter_links_new_node_witness :
  wf two_lists ∧
  represents two_lists 0
    (int_cells [(0%N, 1%Z)] ++ int_cells [(1%N, 2%Z); (2%N, 3%Z)]) ∧
  match InsertAfter (Alloc := seven_nodes) 0 (node_at 0) 7%Z two_lists with
  | Ok p w' =>
      ∃ a, p = node_at a ∧ heap two_lists !! a = None ∧
           elements_of w' 0 = Some (int_values [1; 7; 2; 3]%Z) ∧
           size_of w' 0 = Some 4%Z ∧
           iterator_deref p w' = Ok 7%Z w' ∧
           iterator_incr p w' = Ok (node_at 1) w' ∧
           iterator_incr (node_at 0) w' = Ok p w' ∧
           represents w' 1 cells_b ∧
           wf w'
  | Throw w' => w' = two_lists
  | _ => False
  end.
Proof.
  split; [apply two_lists_wf|]. split; [apply two_lists_a|].
  pose proof (InsertAfter_links_new_node (Alloc := seven_nodes) two_lists 0
                (int_cells [(0%N, 1%Z)]) (int_cells [(1%N, 2%Z); (2%N, 3%Z)])
                7%Z two_lists_wf two_lists_a) as H.
  change (position 0 (int_cells [(0%N, 1%Z)])) with (node_at 0) in H.
  destruct (InsertAfter (Elem := int_elements) (Alloc := seven_nodes)
              0 (node_at 0) 7%Z two_lists) as [p w'|w'| |];
    [|by destruct H|done..].
  destruct H as (_ & _ & a & -> & Hfresh & Hn & Hsz & Hd & Hi & Hp & Hoth & Hwf).
  exists a. split_and!; try done.
  - unfold elements_of. by rewrite Hn.
  - by apply Hoth; [|apply two_lists_b].
Defined.

Lemma InsertAfter_EraseAfter_witness :
  represents two_lists 0
    (int_cells [(0%N, 1%Z)] ++ int_cells [(1%N, 2%Z); (2%N, 3%Z)]) ∧
  match InsertAfter (Alloc := seven_nodes) 0 (node_at 0) 7%Z two_lists with
  | Ok p w1 => EraseAfter 0 (node_at 0) w1 = Ok (node_at 1) two_lists
  | Throw w1 => w1 = two_lists
  | _ => False
  end.
Proof.
  split; [apply two_lists_a|].
  exact (InsertAfter_EraseAfter (Alloc := seven_nodes) two_lists 0
           (int_cells [(0%N, 1%Z)]) (int_cells [(1%N, 2%Z); (2%N, 3%Z)])
           7%Z two_lists_a).
Defined.

Lemma swap_involutive_witness :
  lists two_lists !! 0%N = Some (mkList (node_at 0) 3) ∧
  lists two_lists !! 1%N = Some (mkList (node_at 3) 2) ∧
  (let* _ := swap 0 1 in swap 0 1) two_lists = Ok tt two_lists ∧
  swap 0 1 two_lists = swap 1 0 two_lists ∧
  (let* _ := swap 0 1 in swap_lists 1 0) two_lists = Ok tt two_lists ∧
  swap 0 0 two_lists = Ok tt two_lists.
Proof.
  split; [vm_compute; reflexivity|]. split; [vm_compute; reflexivity|].
  apply (swap_involutive two_lists 0 1 (mkList (node_at 0) 3)
           (mkList (node_at 3) 2)); vm_compute; reflexivity.
Defined.

Lemma construct_from_empty_witness :
  represents one_empty_list 0 [] ∧
  construct_from_values (Alloc := seven_nodes) (int_values []) one_empty_list
  = construct_default one_empty_list ∧
  construct_copy (Alloc := seven_nodes) 0 one_empty_list
  = construct_default one_empty_list.
Proof.
  split; [apply one_empty_list_empty|].
  destruct (construct_from_empty (Alloc := seven_nodes) one_empty_list)
    as [Hvalues Hcopy].
  split; [exact Hvalues|]. apply Hcopy, one_empty_list_empty.
Defined.

Lemma operator_eq_equivalence_witness :
  (∀ x : Z, (x =? x)%Z = true) ∧
  (∀ x y : Z, (x =? y)%Z = (y =? x)%Z) ∧
  (∀ x y z : Z, (x =? y)%Z = true → (y =? z)%Z = true → (x =? z)%Z = true) ∧
  represents two_lists 0 cells_a ∧ represents two_lists 1 cells_b ∧
  operator_eq 0 0 two_lists = Ok true two_lists ∧
  operator_eq 0 1 two_lists = operator_eq 1 0 two_lists ∧
  (operator_eq 0 1 two_lists = Ok true two_lists →
   operator_eq 1 0 two_lists = Ok true two_lists →
   operator_eq 0 0 two_lists = Ok true two_lists).
Proof.
  assert (∀ x y z : Z,
    (x =? y)%Z = true → (y =? z)%Z = true → (x =? z)%Z = true) as Htrans.
  { intros x y z. rewrite !Z.eqb_eq. congruence. }
  split; [apply Z.eqb_refl|]. split; [apply Z.eqb_sym|]. split; [exact Htrans|].
  split; [apply two_lists_a|]. split; [apply two_lists_b|].
  exact (operator_eq_equivalence (Elem := int_elements) two_lists 0 1 0
           cells_a cells_b cells_a Z.eqb_refl Z.eqb_sym Htrans
           two_lists_a two_lists_b two_lists_a).
Defined.

Lemma operator_lt_strict_order_witness :
  (∀ x : Z, (x <? x)%Z = false) ∧
  represents two_lists 0 cells_a ∧ represents two_lists 1 cells_b ∧
  operator_lt 0 0 two_lists = Ok false two_lists ∧
  (operator_lt 0 1 two_lists = Ok true two_lists →
   operator_lt 1 0 two_lists = Ok false two_lists) ∧
  (operator_lt 0 1 two_lists = Ok true two_lists →
   operator_lt 1 0 two_lists = Ok true two_lists →
   operator_lt 0 0 two_lists = Ok true two_lists).
Proof.
  assert (∀ x y z : Z,
    (x <? y)%Z = true → (y <? z)%Z = true → (x <? z)%Z = true) as Htrans.
  { intros x y z. rewrite !Z.ltb_lt. lia. }
  assert (∀ x y z : Z,
    (x <? y)%Z = true → (x <? z)%Z = true ∨ (z <? y)%Z = true) as Hneg.
  { intros x y z. rewrite !Z.ltb_lt. lia. }
  split; [apply Z.ltb_irrefl|].
  split; [apply two_lists_a|]. split; [apply two_lists_b|].
  exact (operator_lt_strict_order (Elem := int_elements) two_lists 0 1 0
           cells_a cells_b cells_a Z.ltb_irrefl Htrans Hneg
           two_lists_a two_lists_b two_lists_a).
Defined.

Lemma comparison_trichotomy_witness :
  total_order (Elem := int_elements) ∧
  represents two_lists 0 cells_a ∧ represents two_lists 1 cells_b ∧
  ∃ lt eq gt : bool,
    operator_lt 0 1 two_lists = Ok lt two_lists ∧
    operator_eq 0 1 two_lists = Ok eq two_lists ∧
    operator_gt 0 1 two_lists = Ok gt two_lists ∧
    operator_ge 0 1 two_lists = Ok (gt || eq) two_lists ∧
    operator_ne 0 1 two_lists = Ok (lt || gt) two_lists ∧
    negb lt = eq || gt ∧ negb eq = lt || gt ∧ negb gt = lt || eq.
Proof.
  split; [apply int_total_order|].
  split; [apply two_lists_a|]. split; [apply two_lists_b|].
  exact (comparison_trichotomy two_lists 0 1 cells_a cells_b
           int_total_order two_lists_a two_lists_b).
Defined.
